(** * caddy-tailscale: option grammar, named-node table and site registry

    A shallow embedding of package [tscaddy] (parse.go, app.go, directive.go).

    Go methods with a pointer receiver become functions that return the
    updated receiver next to their result; a Go [(value, error)] pair
    becomes a pair whose second component is an [option]; [for cond { .. }]
    loops become fixpoints on a fuel argument ([None] = fuel exhausted),
    with the fuel taken from the number of tokens left in the dispenser and
    proved sufficient below. *)

From Stdlib Require Import ZArith String Ascii List Bool Lia.
From stdpp Require Import base option strings list gmap pretty.

Local Open Scope Z_scope.

(** ** strconv (Go standard library)

    [ParseBool] and [ParseUint] as package strconv defines them.
    [ParseUint] is specialised to base 10, the only base parse.go asks
    for; the accumulator is a uint64 and its wrap-around is written out. *)
Module strconv.

Inductive baseError := ErrSyntax | ErrRange.

(** [*strconv.NumError] *)
Record NumError := mkNumError
  { Func : string; Num : string; Err : baseError }.

Definition syntaxError (fn str : string) : NumError := mkNumError fn str ErrSyntax.
Definition rangeError (fn str : string) : NumError := mkNumError fn str ErrRange.

Definition trueWords : list string := ["1"; "t"; "T"; "true"; "TRUE"; "True"].
Definition falseWords : list string := ["0"; "f"; "F"; "false"; "FALSE"; "False"].

Definition ParseBool (str : string) : bool * option NumError :=
  if existsb (String.eqb str) trueWords then (true, None)
  else if existsb (String.eqb str) falseWords then (false, None)
  else (false, Some (syntaxError "ParseBool" str)).

Definition fnParseUint : string := "ParseUint".
Definition maxUint64 : Z := 2 ^ 64 - 1.
Definition wrap64 (x : Z) : Z := x mod 2 ^ 64.

Definition byteOf (c : ascii) : Z := Z.of_N (N_of_ascii c).

(** The body of [for _, c := range []byte(s)] for base 10: a letter is a
    digit of value 10 or more and is refused by [d >= byte(base)], so
    every byte outside '0'..'9' is a syntax error. *)
Fixpoint parseUintLoop (s0 : string) (cutoff maxVal : Z) (s : string) (n : Z)
  : Z * option NumError :=
  match s with
  | EmptyString => (n, None)
  | String c s' =>
      let c := byteOf c in
      if (48 <=? c) && (c <=? 57) then
        let d := c - 48 in
        if n >=? cutoff then (maxVal, Some (rangeError fnParseUint s0))
        else
          let n := wrap64 (n * 10) in
          let n1 := wrap64 (n + d) in
          if (n1 <? n) || (n1 >? maxVal)
          then (maxVal, Some (rangeError fnParseUint s0))
          else parseUintLoop s0 cutoff maxVal s' n1
      else (0, Some (syntaxError fnParseUint s0))
  end.

(** [strconv.ParseUint(s, 10, bitSize)] for [0 < bitSize <= 64]. *)
Definition ParseUint (s : string) (bitSize : Z) : Z * option NumError :=
  if String.eqb s "" then (0, Some (syntaxError fnParseUint s))
  else
    let cutoff := maxUint64 / 10 + 1 in
    let maxVal := wrap64 (Z.shiftl 1 bitSize - 1) in
    parseUintLoop s cutoff maxVal s 0.

End strconv.

(** ** Errors

    The values of Go's [error] interface that this package can return: a
    strconv failure, a message built by fmt.Errorf, and an error wrapped
    by the dispenser with the position of its current token. *)
Inductive error :=
| numError (e : strconv.NumError)
| errorString (msg : string)
| errorAt (err : error) (file : string) (line : Z).


(** [fmt.Sprintf] restricted to the [%s] verb, the only one parse.go uses. *)
Fixpoint Sprintf (format : string) (args : list string) : string :=
  match format with
  | EmptyString => ""
  | String c rest =>
      match rest with
      | String c' rest' =>
          if Ascii.eqb c "%" && Ascii.eqb c' "s" then
            match args with
            | a :: args' => a +:+ Sprintf rest' args'
            | [] => "%!s(MISSING)" +:+ Sprintf rest' []
            end
          else String c (Sprintf rest args)
      | EmptyString => String c ""
      end
  end.

(** Modelled from the spec: the tri-state boolean [opt.Bool]
    (tailscale.com/types/opt is a dependency, not part of this repository):
    unset, or an explicit true or false.  The library keeps it as the string
    "", "true" or "false"; [NewBool] yields the last two. *)
Module opt.
Inductive Bool := unset | set (b : bool).
Definition NewBool (b : bool) : Bool := set b.
(** [Get]: the value and whether it is set. *)
Definition Get (b : Bool) : bool * bool :=
  match b with unset => (false, false) | set v => (v, true) end.
End opt.

(** ** caddyfile.Dispenser

    Modelled from the spec: the token-stream adapter of its section 6
    (advance_block, advance_arg, current_token and the three error
    constructors), in the shape Caddy's [caddyfile.Dispenser] gives it.  The
    type belongs to the Caddy library
    (github.com/caddyserver/caddy/v2/caddyconfig/caddyfile), which parse.go
    imports and this repository does not contain.  The model keeps what the
    parser can observe: the token list, the cursor (-1 before the first
    token) and the nesting depth.  A token carries its file, line and text;
    import chains and heredoc markers, which only refine the same-line test,
    are left out. *)
Module caddyfile.

Record Token := mkToken { File : string; Line : Z; Text : string }.

Definition zeroToken : Token := mkToken "" 0 "".

Record Dispenser := mkDispenser
  { tokens : list Token; cursor : Z; nesting : Z }.

Definition len (d : Dispenser) : Z := Z.of_nat (length (tokens d)).

Definition setCursor (c : Z) (d : Dispenser) : Dispenser :=
  mkDispenser (tokens d) c (nesting d).
Definition setNesting (n : Z) (d : Dispenser) : Dispenser :=
  mkDispenser (tokens d) (cursor d) n.

(** [d.tokens[i]], for an index the caller has checked. *)
Definition at_ (d : Dispenser) (i : Z) : Token :=
  default zeroToken (tokens d !! Z.to_nat i).

Definition NewDispenser (tokens : list Token) : Dispenser :=
  mkDispenser tokens (-1) 0.

Definition Next (d : Dispenser) : bool * Dispenser :=
  if cursor d <? len d - 1 then (true, setCursor (cursor d + 1) d)
  else (false, d).

Definition Prev (d : Dispenser) : bool * Dispenser :=
  if cursor d >? -1 then (true, setCursor (cursor d - 1) d)
  else (false, d).

Definition Token_ (d : Dispenser) : Token :=
  if (cursor d <? 0) || (cursor d >=? len d) then zeroToken
  else at_ d (cursor d).

Definition Val (d : Dispenser) : string :=
  if (cursor d <? 0) || (cursor d >=? len d) then ""
  else Text (at_ d (cursor d)).

Definition File_ (d : Dispenser) : string :=
  if (cursor d <? 0) || (cursor d >=? len d) then ""
  else File (at_ d (cursor d)).

Definition Line_ (d : Dispenser) : Z :=
  if (cursor d <? 0) || (cursor d >=? len d) then 0
  else Line (at_ d (cursor d)).

Definition Nesting (d : Dispenser) : Z := nesting d.

(** [strings.Count(t.Text, "\n")] *)
Fixpoint NumLineBreaks (text : string) : Z :=
  match text with
  | EmptyString => 0
  | String c rest =>
      (if Ascii.eqb c "010" then 1 else 0) + NumLineBreaks rest
  end.

Definition isNextOnNewLine (t1 t2 : Token) : bool :=
  if negb (String.eqb (File t1) (File t2)) then true
  else Line t1 + NumLineBreaks (Text t1) <? Line t2.

Definition nextOnSameLine (d : Dispenser) : bool * Dispenser :=
  if cursor d <? 0 then (true, setCursor (cursor d + 1) d)
  else if cursor d >=? len d - 1 then (false, d)
  else
    let curr := at_ d (cursor d) in
    let next := at_ d (cursor d + 1) in
    if negb (isNextOnNewLine curr next) then (true, setCursor (cursor d + 1) d)
    else (false, d).

Definition NextArg (d : Dispenser) : bool * Dispenser :=
  let '(ok, d) := nextOnSameLine d in
  if negb ok then (false, d)
  else if String.eqb (Val d) "{" then
    (* roll back; a block opening is not an argument *)
    (false, setCursor (cursor d - 1) d)
  else (true, d).

Definition NextBlock (initialNestingLevel : Z) (d : Dispenser) : bool * Dispenser :=
  if nesting d >? initialNestingLevel then
    let '(ok, d) := Next d in
    if negb ok then (false, d)
    else
      let d :=
        if String.eqb (Val d) "}" then
          let '(same, d) := nextOnSameLine d in
          if negb same then setNesting (nesting d - 1) d
          else if String.eqb (Val d) "{" then
            let '(same, d) := nextOnSameLine d in
            if negb same then setNesting (nesting d + 1) d else d
          else d
        else if String.eqb (Val d) "{" then
          let '(same, d) := nextOnSameLine d in
          if negb same then setNesting (nesting d + 1) d else d
        else d in
      (nesting d >? initialNestingLevel, d)
  else
    let '(ok, d) := nextOnSameLine d in
    if negb ok then (false, d) (* block must open on same line *)
    else if negb (String.eqb (Val d) "{") then
      (false, setCursor (cursor d - 1) d) (* roll back if not opening brace *)
    else
      let '(_, d) := Next d in (* consume open curly brace *)
      if String.eqb (Val d) "}" then (false, d) (* open and then closed right away *)
      else (true, setNesting (nesting d + 1) d).

(** [for d.NextArg() { tkns = append(tkns, d.Token()) }] *)
Fixpoint segmentArgs (fuel : nat) (d : Dispenser) (tkns : list Token)
  : option (Dispenser * list Token) :=
  match fuel with
  | O => None
  | S fuel' =>
      let '(ok, d) := NextArg d in
      if negb ok then Some (d, tkns)
      else segmentArgs fuel' d (tkns ++ [Token_ d])
  end.

(** [for nesting := d.Nesting(); d.NextBlock(nesting); { .. }] *)
Fixpoint segmentBlock (fuel : nat) (nesting0 : Z) (d : Dispenser)
    (openedBlock : bool) (tkns : list Token)
  : option (Dispenser * bool * list Token) :=
  match fuel with
  | O => None
  | S fuel' =>
      let '(ok, d) := NextBlock nesting0 d in
      if negb ok then Some (d, openedBlock, tkns)
      else
        let '(d, tkns) :=
          if negb openedBlock then
            (* rewind to append the opening brace NextBlock consumed *)
            let '(_, d) := Prev d in
            let tkns := tkns ++ [Token_ d] in
            let '(_, d) := Next d in
            (d, tkns)
          else (d, tkns) in
        segmentBlock fuel' nesting0 d true (tkns ++ [Token_ d])
  end.

(** Number of tokens from the cursor to the end: the loop fuel. *)
Definition remaining (d : Dispenser) : nat := Z.to_nat (len d - cursor d).

(** [NextSegment]: the current token, the arguments after it on its line
    and, when a block opens at the end of that line, the block with its
    braces. *)
Definition NextSegment (d : Dispenser) : option (Dispenser * list Token) :=
  let tkns := [Token_ d] in
  match segmentArgs (S (remaining d)) d tkns with
  | None => None
  | Some (d, tkns) =>
      match segmentBlock (S (remaining d)) (Nesting d) d false tkns with
      | None => None
      | Some (d, openedBlock, tkns) =>
          if openedBlock : bool
          then Some (d, tkns ++ [Token_ d]) (* include closing brace *)
          else Some (d, tkns)
      end
  end.

Definition NewFromNextSegment (d : Dispenser) : option (Dispenser * Dispenser) :=
  match NextSegment d with
  | None => None
  | Some (d, tkns) => Some (d, NewDispenser tkns)
  end.

(** [WrapErr]: [fmt.Errorf("%w, at %s:%d", err, d.File(), d.Line())] *)
Definition WrapErr (d : Dispenser) (err : error) : error :=
  errorAt err (File_ d) (Line_ d).

Definition Err (d : Dispenser) (msg : string) : error :=
  WrapErr d (errorString msg).

Definition Errf (d : Dispenser) (format : string) (args : list string) : error :=
  WrapErr d (errorString (Sprintf format args)).

Definition ArgErr (d : Dispenser) : error :=
  if String.eqb (Val d) "{" then
    Err d "unexpected token '{', expecting argument"
  else
    Errf d "wrong argument count or unexpected line ending after '%s'" [Val d].

End caddyfile.

(** ** app.go: the configuration records *)

(** [type Node struct]; [Port] is a uint16 kept as a [Z] below [2^16]. *)
Module Node.
Record t := mk
  { AuthKey : string;
    ControlURL : string;
    Ephemeral : opt.Bool;
    WebUI : opt.Bool;
    Hostname : string;
    Port : Z;
    StateDir : string;
    Tags : list string;
    name : string }.

(** [Node{}] *)
Definition zero : t := mk "" "" opt.unset opt.unset "" 0 "" [] "".

Definition setAuthKey (v : string) (n : t) : t :=
  mk v (ControlURL n) (Ephemeral n) (WebUI n) (Hostname n) (Port n) (StateDir n) (Tags n) (name n).
Definition setControlURL (v : string) (n : t) : t :=
  mk (AuthKey n) v (Ephemeral n) (WebUI n) (Hostname n) (Port n) (StateDir n) (Tags n) (name n).
Definition setEphemeral (v : opt.Bool) (n : t) : t :=
  mk (AuthKey n) (ControlURL n) v (WebUI n) (Hostname n) (Port n) (StateDir n) (Tags n) (name n).
Definition setWebUI (v : opt.Bool) (n : t) : t :=
  mk (AuthKey n) (ControlURL n) (Ephemeral n) v (Hostname n) (Port n) (StateDir n) (Tags n) (name n).
Definition setHostname (v : string) (n : t) : t :=
  mk (AuthKey n) (ControlURL n) (Ephemeral n) (WebUI n) v (Port n) (StateDir n) (Tags n) (name n).
Definition setPort (v : Z) (n : t) : t :=
  mk (AuthKey n) (ControlURL n) (Ephemeral n) (WebUI n) (Hostname n) v (StateDir n) (Tags n) (name n).
Definition setStateDir (v : string) (n : t) : t :=
  mk (AuthKey n) (ControlURL n) (Ephemeral n) (WebUI n) (Hostname n) (Port n) v (Tags n) (name n).
Definition setTags (v : list string) (n : t) : t :=
  mk (AuthKey n) (ControlURL n) (Ephemeral n) (WebUI n) (Hostname n) (Port n) (StateDir n) v (name n).
Definition setName (v : string) (n : t) : t :=
  mk (AuthKey n) (ControlURL n) (Ephemeral n) (WebUI n) (Hostname n) (Port n) (StateDir n) (Tags n) v.
End Node.

(** [type App struct], without its logger.  [Nodes] is a Go map that may
    be nil: [None] is the nil map. *)
Module App.
Record t := mk
  { DefaultAuthKey : string;
    ControlURL : string;
    Ephemeral : bool;
    StateDir : string;
    WebUI : bool;
    Tags : list string;
    Nodes : option (gmap string Node.t) }.

(** [App{}] *)
Definition zero : t := mk "" "" false "" false [] None.

Definition setDefaultAuthKey (v : string) (a : t) : t :=
  mk v (ControlURL a) (Ephemeral a) (StateDir a) (WebUI a) (Tags a) (Nodes a).
Definition setControlURL (v : string) (a : t) : t :=
  mk (DefaultAuthKey a) v (Ephemeral a) (StateDir a) (WebUI a) (Tags a) (Nodes a).
Definition setEphemeral (v : bool) (a : t) : t :=
  mk (DefaultAuthKey a) (ControlURL a) v (StateDir a) (WebUI a) (Tags a) (Nodes a).
Definition setStateDir (v : string) (a : t) : t :=
  mk (DefaultAuthKey a) (ControlURL a) (Ephemeral a) v (WebUI a) (Tags a) (Nodes a).
Definition setWebUI (v : bool) (a : t) : t :=
  mk (DefaultAuthKey a) (ControlURL a) (Ephemeral a) (StateDir a) v (Tags a) (Nodes a).
Definition setTags (v : list string) (a : t) : t :=
  mk (DefaultAuthKey a) (ControlURL a) (Ephemeral a) (StateDir a) (WebUI a) v (Nodes a).
Definition setNodes (v : option (gmap string Node.t)) (a : t) : t :=
  mk (DefaultAuthKey a) (ControlURL a) (Ephemeral a) (StateDir a) (WebUI a) (Tags a) v.

(** Reading a nil map gives what reading an empty map gives. *)
Definition nodes (a : t) : gmap string Node.t := default ∅ (Nodes a).
End App.

(** [uint16(v)] *)
Definition uint16 (v : Z) : Z := v mod 2 ^ 16.

(** ** parse.go *)

(** What a parse function hands back: the dispenser and the target as the
    call left them, and the returned error ([None] is Go's nil). *)
Definition parsed (D T : Type) : Type := D * T * option error.

(** [for d.NextArg() { tags = append(tags, d.Val()) }] *)
Fixpoint appendArgs (fuel : nat) (d : caddyfile.Dispenser) (tags : list string)
  : option (caddyfile.Dispenser * list string) :=
  match fuel with
  | O => None
  | S fuel' =>
      let '(ok, d) := caddyfile.NextArg d in
      if negb ok then Some (d, tags)
      else appendArgs fuel' d (tags ++ [caddyfile.Val d])
  end.

(** The [switch d.Val()] of parseNodeOptionsFromDispenser: one option line.
    An error in the result is the function's [return]; no error falls
    through to the next iteration. *)
Definition nodeOption (fuel : nat) (d : caddyfile.Dispenser) (node : Node.t)
  : option (parsed caddyfile.Dispenser Node.t) :=
  let kw := caddyfile.Val d in
  if String.eqb kw "auth_key" then
    let '(ok, d) := caddyfile.NextArg d in
    if negb ok then Some (d, node, Some (caddyfile.ArgErr d))
    else Some (d, Node.setAuthKey (caddyfile.Val d) node, None)
  else if String.eqb kw "control_url" then
    let '(ok, d) := caddyfile.NextArg d in
    if negb ok then Some (d, node, Some (caddyfile.ArgErr d))
    else Some (d, Node.setControlURL (caddyfile.Val d) node, None)
  else if String.eqb kw "ephemeral" then
    let '(ok, d) := caddyfile.NextArg d in
    if ok then
      match strconv.ParseBool (caddyfile.Val d) with
      | (_, Some err) => Some (d, node, Some (caddyfile.WrapErr d (numError err)))
      | (v, None) => Some (d, Node.setEphemeral (opt.NewBool v) node, None)
      end
    else Some (d, Node.setEphemeral (opt.NewBool true) node, None)
  else if String.eqb kw "hostname" then
    let '(ok, d) := caddyfile.NextArg d in
    if negb ok then Some (d, node, Some (caddyfile.ArgErr d))
    else Some (d, Node.setHostname (caddyfile.Val d) node, None)
  else if String.eqb kw "port" then
    let '(ok, d) := caddyfile.NextArg d in
    if negb ok then Some (d, node, Some (caddyfile.ArgErr d))
    else
      match strconv.ParseUint (caddyfile.Val d) 16 with
      | (_, Some err) => Some (d, node, Some (caddyfile.WrapErr d (numError err)))
      | (v, None) => Some (d, Node.setPort (uint16 v) node, None)
      end
  else if String.eqb kw "state_dir" then
    let '(ok, d) := caddyfile.NextArg d in
    if negb ok then Some (d, node, Some (caddyfile.ArgErr d))
    else Some (d, Node.setStateDir (caddyfile.Val d) node, None)
  else if String.eqb kw "webui" then
    let '(ok, d) := caddyfile.NextArg d in
    if ok then
      match strconv.ParseBool (caddyfile.Val d) with
      | (_, Some err) => Some (d, node, Some (caddyfile.WrapErr d (numError err)))
      | (v, None) => Some (d, Node.setWebUI (opt.NewBool v) node, None)
      end
    else Some (d, Node.setWebUI (opt.NewBool true) node, None)
  else if String.eqb kw "tags" then
    match appendArgs fuel d (Node.Tags node) with
    | None => None
    | Some (d, tags) => Some (d, Node.setTags tags node, None)
    end
  else
    Some (d, node,
          Some (caddyfile.Errf d "unrecognized subdirective: %s" [caddyfile.Val d])).

(** [for d.NextBlock(0) { switch .. }; return nil] *)
Fixpoint parseNodeOptionsFromDispenser_loop (fuel : nat)
    (d : caddyfile.Dispenser) (node : Node.t)
  : option (parsed caddyfile.Dispenser Node.t) :=
  match fuel with
  | O => None
  | S fuel' =>
      let '(more, d) := caddyfile.NextBlock 0 d in
      if negb more then Some (d, node, None)
      else
        match nodeOption fuel' d node with
        | Some (d, node, None) => parseNodeOptionsFromDispenser_loop fuel' d node
        | stop => stop
        end
  end.

Definition parseNodeOptionsFromDispenser (d : caddyfile.Dispenser) (node : Node.t)
  : option (parsed caddyfile.Dispenser Node.t) :=
  parseNodeOptionsFromDispenser_loop (S (caddyfile.remaining d)) d node.

(** The anonymous interface parseNodeOptionsFromHelper asks of its argument. *)
Class OptionSource (H : Type) := {
  NextBlock : Z -> H -> bool * H;
  Val : H -> string;
  NextArg : H -> bool * H;
  ArgErr : H -> error;
  WrapErr : H -> error -> error;
  Errf : H -> string -> list string -> error
}.

Section FromHelper.
Context {H : Type} `{OptionSource H}.

(** [for h.NextArg() { tags = append(tags, h.Val()) }] *)
Fixpoint appendArgsH (fuel : nat) (h : H) (tags : list string)
  : option (H * list string) :=
  match fuel with
  | O => None
  | S fuel' =>
      let '(ok, h) := NextArg h in
      if negb ok then Some (h, tags)
      else appendArgsH fuel' h (tags ++ [Val h])
  end.

(** The [switch h.Val()] of parseNodeOptionsFromHelper. *)
Definition nodeOptionH (fuel : nat) (h : H) (node : Node.t)
  : option (parsed H Node.t) :=
  let kw := Val h in
  if String.eqb kw "auth_key" then
    let '(ok, h) := NextArg h in
    if negb ok then Some (h, node, Some (ArgErr h))
    else Some (h, Node.setAuthKey (Val h) node, None)
  else if String.eqb kw "control_url" then
    let '(ok, h) := NextArg h in
    if negb ok then Some (h, node, Some (ArgErr h))
    else Some (h, Node.setControlURL (Val h) node, None)
  else if String.eqb kw "ephemeral" then
    let '(ok, h) := NextArg h in
    if ok then
      match strconv.ParseBool (Val h) with
      | (_, Some err) => Some (h, node, Some (WrapErr h (numError err)))
      | (v, None) => Some (h, Node.setEphemeral (opt.NewBool v) node, None)
      end
    else Some (h, Node.setEphemeral (opt.NewBool true) node, None)
  else if String.eqb kw "hostname" then
    let '(ok, h) := NextArg h in
    if negb ok then Some (h, node, Some (ArgErr h))
    else Some (h, Node.setHostname (Val h) node, None)
  else if String.eqb kw "port" then
    let '(ok, h) := NextArg h in
    if negb ok then Some (h, node, Some (ArgErr h))
    else
      match strconv.ParseUint (Val h) 16 with
      | (_, Some err) => Some (h, node, Some (WrapErr h (numError err)))
      | (v, None) => Some (h, Node.setPort (uint16 v) node, None)
      end
  else if String.eqb kw "state_dir" then
    let '(ok, h) := NextArg h in
    if negb ok then Some (h, node, Some (ArgErr h))
    else Some (h, Node.setStateDir (Val h) node, None)
  else if String.eqb kw "webui" then
    let '(ok, h) := NextArg h in
    if ok then
      match strconv.ParseBool (Val h) with
      | (_, Some err) => Some (h, node, Some (WrapErr h (numError err)))
      | (v, None) => Some (h, Node.setWebUI (opt.NewBool v) node, None)
      end
    else Some (h, Node.setWebUI (opt.NewBool true) node, None)
  else if String.eqb kw "tags" then
    match appendArgsH fuel h (Node.Tags node) with
    | None => None
    | Some (h, tags) => Some (h, Node.setTags tags node, None)
    end
  else
    Some (h, node, Some (Errf h "unrecognized subdirective: %s" [Val h])).

(** [for h.NextBlock(0) { switch .. }; return nil].  The interface gives
    no bound on the tokens left, so the caller supplies the fuel. *)
Fixpoint parseNodeOptionsFromHelper (fuel : nat) (h : H) (node : Node.t)
  : option (parsed H Node.t) :=
  match fuel with
  | O => None
  | S fuel' =>
      let '(more, h) := NextBlock 0 h in
      if negb more then Some (h, node, None)
      else
        match nodeOptionH fuel' h node with
        | Some (h, node, None) => parseNodeOptionsFromHelper fuel' h node
        | stop => stop
        end
  end.
End FromHelper.

(** [httpcaddyfile.Helper] embeds a [*caddyfile.Dispenser]; its other fields
    (options, matcher definitions, warnings) are not read by this package.
    The dispenser's methods are promoted to the helper. *)
Module httpcaddyfile.
Record Helper := mkHelper { Dispenser : caddyfile.Dispenser }.

Definition promote {A : Type} (r : A * caddyfile.Dispenser) : A * Helper :=
  (fst r, mkHelper (snd r)).

Definition Next (h : Helper) : bool * Helper :=
  promote (caddyfile.Next (Dispenser h)).

#[global] Instance helperSource : OptionSource Helper := {|
  NextBlock := fun n h => promote (caddyfile.NextBlock n (Dispenser h));
  Val := fun h => caddyfile.Val (Dispenser h);
  NextArg := fun h => promote (caddyfile.NextArg (Dispenser h));
  ArgErr := fun h => caddyfile.ArgErr (Dispenser h);
  WrapErr := fun h => caddyfile.WrapErr (Dispenser h);
  Errf := fun h => caddyfile.Errf (Dispenser h)
|}.
End httpcaddyfile.

(** [parseNamedNodeConfig]: the current token names the node; the segment
    that starts at it is parsed into a fresh [Node{name: name}]. *)
Definition parseNamedNodeConfig (d : caddyfile.Dispenser)
  : option (parsed caddyfile.Dispenser Node.t) :=
  let name := caddyfile.Val d in
  match caddyfile.NewFromNextSegment d with
  | None => None
  | Some (d, segment) =>
      let '(ok, segment) := caddyfile.Next segment in
      if negb ok then Some (d, Node.zero, Some (caddyfile.ArgErr d))
      else
        let node := Node.setName name Node.zero in
        match parseNodeOptionsFromDispenser segment node with
        | None => None
        | Some (_, node, err) => Some (d, node, err)
        end
  end.

(** The [switch d.Val()] of parseAppOptions: one line of the global block. *)
Definition appOption (fuel : nat) (d : caddyfile.Dispenser) (app : App.t)
  : option (parsed caddyfile.Dispenser App.t) :=
  let kw := caddyfile.Val d in
  if String.eqb kw "auth_key" then
    let '(ok, d) := caddyfile.NextArg d in
    if negb ok then Some (d, app, Some (caddyfile.ArgErr d))
    else Some (d, App.setDefaultAuthKey (caddyfile.Val d) app, None)
  else if String.eqb kw "control_url" then
    let '(ok, d) := caddyfile.NextArg d in
    if negb ok then Some (d, app, Some (caddyfile.ArgErr d))
    else Some (d, App.setControlURL (caddyfile.Val d) app, None)
  else if String.eqb kw "ephemeral" then
    let '(ok, d) := caddyfile.NextArg d in
    if ok then
      match strconv.ParseBool (caddyfile.Val d) with
      | (_, Some err) => Some (d, app, Some (caddyfile.WrapErr d (numError err)))
      | (v, None) => Some (d, App.setEphemeral v app, None)
      end
    else Some (d, App.setEphemeral true app, None)
  else if String.eqb kw "state_dir" then
    let '(ok, d) := caddyfile.NextArg d in
    if negb ok then Some (d, app, Some (caddyfile.ArgErr d))
    else Some (d, App.setStateDir (caddyfile.Val d) app, None)
  else if String.eqb kw "webui" then
    let '(ok, d) := caddyfile.NextArg d in
    if ok then
      match strconv.ParseBool (caddyfile.Val d) with
      | (_, Some err) => Some (d, app, Some (caddyfile.WrapErr d (numError err)))
      | (v, None) => Some (d, App.setWebUI v app, None)
      end
    else Some (d, App.setWebUI true app, None)
  else if String.eqb kw "tags" then
    match appendArgs fuel d (App.Tags app) with
    | None => None
    | Some (d, tags) => Some (d, App.setTags tags app, None)
    end
  else
    (* Try to parse as a named node configuration *)
    match parseNamedNodeConfig d with
    | None => None
    | Some (d, _, Some err) => Some (d, app, Some err)
    | Some (d, node, None) =>
        let app := if App.Nodes app is None then App.setNodes (Some ∅) app else app in
        Some (d, App.setNodes (Some (<[Node.name node := node]> (App.nodes app))) app, None)
    end.

(** [for d.NextBlock(0) { switch .. }; return nil] *)
Fixpoint parseAppOptions_loop (fuel : nat) (d : caddyfile.Dispenser) (app : App.t)
  : option (parsed caddyfile.Dispenser App.t) :=
  match fuel with
  | O => None
  | S fuel' =>
      let '(more, d) := caddyfile.NextBlock 0 d in
      if negb more then Some (d, app, None)
      else
        match appOption fuel' d app with
        | Some (d, app, None) => parseAppOptions_loop fuel' d app
        | stop => stop
        end
  end.

Definition parseAppOptions (d : caddyfile.Dispenser) (app : App.t)
  : option (parsed caddyfile.Dispenser App.t) :=
  parseAppOptions_loop (S (caddyfile.remaining d)) d app.

(** ** app.go *)

(** [parseAppConfig].  The returned value is the [App] itself: its JSON
    encoding into an [httpcaddyfile.App] is left to the host.  On a parse
    error the Go function returns a nil value. *)
Definition parseAppConfig (d : caddyfile.Dispenser)
  : option (caddyfile.Dispenser * option App.t * option error) :=
  let app := App.setNodes (Some ∅) App.zero in
  let '(ok, d) := caddyfile.Next d in
  if negb ok then Some (d, Some app, Some (caddyfile.ArgErr d))
  else
    match parseAppOptions d app with
    | None => None
    | Some (d, _, Some err) => Some (d, None, Some err)
    | Some (d, app, None) => Some (d, Some app, None)
    end.

Definition parseNodeConfig (d : caddyfile.Dispenser)
  : option (parsed caddyfile.Dispenser Node.t) :=
  parseNamedNodeConfig d.

(** ** directive.go *)

(** The package variable [siteConfigs], a map made non-nil at start-up.
    [siteConfigsMu] serialises every access, so each operation acts on
    the registry as a whole: it is threaded as a state. *)
Definition siteConfigs0 : gmap string Node.t := ∅.

Definition setSiteConfig (nodeName : string) (config : Node.t)
    (siteConfigs : gmap string Node.t) : gmap string Node.t :=
  <[nodeName := config]> siteConfigs.

(** [config, exists := siteConfigs[nodeName]]: a missing key reads as the
    zero [Node] and [false]. *)
Definition getSiteConfig (nodeName : string) (siteConfigs : gmap string Node.t)
  : Node.t * bool :=
  match siteConfigs !! nodeName with
  | Some config => (config, true)
  | None => (Node.zero, false)
  end.

(** [type TailscaleDirective struct] *)
Module TailscaleDirective.
Record t := mk
  { NodeName : string;
    AuthKey : string;
    ControlURL : string;
    Ephemeral : opt.Bool;
    WebUI : opt.Bool;
    Hostname : string;
    Port : Z;
    StateDir : string;
    Tags : list string }.

Definition zero : t := mk "" "" "" opt.unset opt.unset "" 0 "" [].

Definition setNodeName (v : string) (t0 : t) : t :=
  mk v (AuthKey t0) (ControlURL t0) (Ephemeral t0) (WebUI t0) (Hostname t0)
     (Port t0) (StateDir t0) (Tags t0).

(** The eight assignments that copy the parsed values to the directive. *)
Definition copyFrom (node : Node.t) (t0 : t) : t :=
  mk (NodeName t0) (Node.AuthKey node) (Node.ControlURL node)
     (Node.Ephemeral node) (Node.WebUI node) (Node.Hostname node)
     (Node.Port node) (Node.StateDir node) (Node.Tags node).
End TailscaleDirective.

(** [Provision] of [TailscaleDirective]: the registry after the call and the
    returned error. *)
Definition Provision (t0 : TailscaleDirective.t) (siteConfigs : gmap string Node.t)
  : gmap string Node.t * option error :=
  let nodeName := TailscaleDirective.NodeName t0 in
  let nodeName := if String.eqb nodeName "" then "default" else nodeName in
  let node :=
    Node.mk (TailscaleDirective.AuthKey t0)
            (TailscaleDirective.ControlURL t0)
            (TailscaleDirective.Ephemeral t0)
            (TailscaleDirective.WebUI t0)
            (TailscaleDirective.Hostname t0)
            (TailscaleDirective.Port t0)
            (TailscaleDirective.StateDir t0)
            (TailscaleDirective.Tags t0)
            nodeName in
  (setSiteConfig nodeName node siteConfigs, None).

(** [for h.Next() { .. }] of parseTailscaleDirective. *)
Fixpoint parseTailscaleDirective_loop (fuel : nat) (h : httpcaddyfile.Helper)
    (directive : TailscaleDirective.t)
  : option (httpcaddyfile.Helper * option TailscaleDirective.t * option error) :=
  match fuel with
  | O => None
  | S fuel' =>
      let '(more, h) := httpcaddyfile.Next h in
      if negb more then Some (h, Some directive, None)
      else
        (* First argument could be the node name *)
        let '(ok, h) := NextArg h in
        let directive :=
          if ok then TailscaleDirective.setNodeName (Val h) directive
          else directive in
        let directive :=
          if String.eqb (TailscaleDirective.NodeName directive) ""
          then TailscaleDirective.setNodeName "default" directive
          else directive in
        let node := Node.zero in
        match parseNodeOptionsFromHelper
                (S (caddyfile.remaining (httpcaddyfile.Dispenser h))) h node with
        | None => None
        | Some (h, _, Some err) => Some (h, None, Some err)
        | Some (h, node, None) =>
            parseTailscaleDirective_loop fuel' h
              (TailscaleDirective.copyFrom node directive)
        end
  end.

Definition parseTailscaleDirective (h : httpcaddyfile.Helper)
  : option (httpcaddyfile.Helper * option TailscaleDirective.t * option error) :=
  parseTailscaleDirective_loop
    (S (caddyfile.remaining (httpcaddyfile.Dispenser h))) h TailscaleDirective.zero.

(** ** Token streams for the examples *)

(** A line of source text as tokens of file "Caddyfile". *)
Definition line (n : Z) (words : list string) : list caddyfile.Token :=
  map (caddyfile.mkToken "Caddyfile" n) words.

(** A dispenser over the given lines, numbered from 1. *)
Fixpoint linesFrom (n : Z) (ls : list (list string)) : list caddyfile.Token :=
  match ls with
  | [] => []
  | l :: ls' => line n l ++ linesFrom (n + 1) ls'
  end.

Definition dispenserOf (ls : list (list string)) : caddyfile.Dispenser :=
  caddyfile.NewDispenser (linesFrom 1 ls).

(** ** Vocabulary of the statements *)

(** A result of the dispenser parser, seen through the helper that embeds
    the dispenser. *)
Definition asHelper {T : Type} (r : option (parsed caddyfile.Dispenser T))
  : option (parsed httpcaddyfile.Helper T) :=
  match r with
  | Some (d, t, e) => Some (httpcaddyfile.mkHelper d, t, e)
  | None => None
  end.

(** The registry after a sequence of [setSiteConfig] calls, oldest first. *)
Definition afterSets (calls : list (string * Node.t)) (siteConfigs : gmap string Node.t)
  : gmap string Node.t :=
  fold_left (fun reg call => setSiteConfig (fst call) (snd call) reg) calls siteConfigs.

(** The name [Provision] publishes under. *)
Definition effectiveName (t0 : TailscaleDirective.t) : string :=
  if String.eqb (TailscaleDirective.NodeName t0) "" then "default"
  else TailscaleDirective.NodeName t0.

(** The directive [tailscale node1 { port 8443 }]. *)
Definition directive_node1_port : httpcaddyfile.Helper :=
  httpcaddyfile.mkHelper
    (dispenserOf [["tailscale"; "node1"; "{"]; ["port"; "8443"]; ["}"]]).

(** Digit strings and the numbers they denote. *)
Definition isDigit (c : ascii) : bool := (48 <=? strconv.byteOf c) && (strconv.byteOf c <=? 57).

Fixpoint allDigits (s : string) : bool :=
  match s with
  | EmptyString => true
  | String c s' => isDigit c && allDigits s'
  end.

(** The number a digit string denotes in base 10, read after [acc]. *)
Fixpoint valueFrom (acc : Z) (s : string) : Z :=
  match s with
  | EmptyString => acc
  | String c s' => valueFrom (acc * 10 + (strconv.byteOf c - 48)) s'
  end.

Definition decimalValue (s : string) : Z := valueFrom 0 s.

(** [s] is a base-10 numeral: one or more digits. *)
Definition isDecimal (s : string) : bool :=
  negb (String.eqb s "") && allDigits s.

(** The case labels of the node switch, and those of the App switch. *)
Definition nodeKeywords : list string :=
  ["auth_key"; "control_url"; "ephemeral"; "hostname"; "port"; "state_dir";
   "webui"; "tags"].

Definition appKeywords : list string :=
  ["auth_key"; "control_url"; "ephemeral"; "state_dir"; "webui"; "tags"].




(** The tri-state field [ephemeral] or [webui] names. *)
Definition setTriState (kw : string) (v : opt.Bool) (node : Node.t) : Node.t :=
  if String.eqb kw "ephemeral" then Node.setEphemeral v node
  else if String.eqb kw "webui" then Node.setWebUI v node
  else node.

Definition getTriState (kw : string) (node : Node.t) : opt.Bool :=
  if String.eqb kw "ephemeral" then Node.Ephemeral node
  else if String.eqb kw "webui" then Node.WebUI node
  else opt.unset.

(** [lineArgs d args d']: from [d], [NextArg] yields the arguments [args]
    one after the other, then reports that the line has no more and leaves
    the dispenser at [d']. *)
Inductive lineArgs : caddyfile.Dispenser -> list string -> caddyfile.Dispenser -> Prop :=
| lineArgs_end d d' :
    caddyfile.NextArg d = (false, d') -> lineArgs d [] d'
| lineArgs_arg d d1 args d' :
    caddyfile.NextArg d = (true, d1) -> lineArgs d1 args d' ->
    lineArgs d (caddyfile.Val d1 :: args) d'.

(** A dispenser whose cursor is on the first token of the given lines, as
    the host hands it over after consuming the directive name. *)
Definition onFirstToken (ls : list (list string)) : caddyfile.Dispenser :=
  caddyfile.mkDispenser (linesFrom 1 ls) 0 0.

(** An [App] and a [Node] hold the same values for the options both have:
    the App-level auth key is [DefaultAuthKey], and a plain boolean stands
    for the tri-state set to it (or unset, when the boolean is false). *)
Definition sameOptions (app : App.t) (node : Node.t) : Prop :=
  App.DefaultAuthKey app = Node.AuthKey node /\
  App.ControlURL app = Node.ControlURL node /\
  App.Ephemeral app = fst (opt.Get (Node.Ephemeral node)) /\
  App.StateDir app = Node.StateDir node /\
  App.WebUI app = fst (opt.Get (Node.WebUI node)) /\
  App.Tags app = Node.Tags node.

(** What the default case of the App switch does with the result of
    [parseNamedNodeConfig]. *)
Definition storeNamedNode (r : option (parsed caddyfile.Dispenser Node.t)) (app : App.t)
  : option (parsed caddyfile.Dispenser App.t) :=
  match r with
  | None => None
  | Some (d, _, Some err) => Some (d, app, Some err)
  | Some (d, node, None) =>
      Some (d, App.setNodes (Some (<[Node.name node := node]> (App.nodes app))) app, None)
  end.

(** The Nodes that a run of the App loop parses from named blocks, in the
    order of the blocks in the source. *)
Fixpoint namedNodes (fuel : nat) (d : caddyfile.Dispenser) (app : App.t) : list Node.t :=
  match fuel with
  | O => []
  | S fuel' =>
      let '(more, d1) := caddyfile.NextBlock 0 d in
      if negb more then []
      else
        match appOption fuel' d1 app with
        | Some (d2, app2, None) =>
            (if existsb (String.eqb (caddyfile.Val d1)) appKeywords then []
             else
               match parseNamedNodeConfig d1 with
               | Some (_, node, None) => [node]
               | _ => []
               end)
            ++ namedNodes fuel' d2 app2
        | _ => []
        end
  end.

Definition namedBlocks (d : caddyfile.Dispenser) (app : App.t) : list Node.t :=
  namedNodes (S (caddyfile.remaining d)) d app.

(** [app.Nodes[node.name] = node] *)
Definition insertNode (nodes : gmap string Node.t) (node : Node.t) : gmap string Node.t :=
  <[Node.name node := node]> nodes.

(** The global block with two node blocks named "edge". *)
Definition two_edge_blocks : caddyfile.Dispenser :=
  onFirstToken
    [["tailscale"; "{"];
     ["edge"; "{"]; ["hostname"; "h1"]; ["}"];
     ["auth_key"; "k"];
     ["edge"; "{"]; ["port"; "8443"]; ["}"];
     ["}"]].

(** [node'] has the tags of [node], then possibly more. *)
Definition tagsExtended (node node' : Node.t) : Prop :=
  exists extra, Node.Tags node' = Node.Tags node ++ extra.

(** A tri-state that was kept, or that now holds an explicit boolean. *)
Definition keptOrSet (b b' : opt.Bool) : Prop :=
  b' = b \/ exists v, b' = opt.set v.

(** The errors the node switch builds, at the dispenser [d] it returns. *)
Definition nodeParseError (d : caddyfile.Dispenser) (err : error) : Prop :=
  err = caddyfile.ArgErr d \/
  err = caddyfile.WrapErr d
          (numError (strconv.syntaxError "ParseBool" (caddyfile.Val d))) \/
  (exists kind,
     err = caddyfile.WrapErr d
             (numError (strconv.mkNumError "ParseUint" (caddyfile.Val d) kind))) \/
  (err = caddyfile.Errf d "unrecognized subdirective: %s" [caddyfile.Val d] /\
   ~ In (caddyfile.Val d) nodeKeywords).

(** Every Node of the table is stored under its own name. *)
Definition keyedByName (nodes : gmap string Node.t) : Prop :=
  forall k n, nodes !! k = Some n -> Node.name n = k.

(** The Node that [Provision] builds from a directive. *)
Definition directiveNode (t0 : TailscaleDirective.t) : Node.t :=
  Node.mk (TailscaleDirective.AuthKey t0) (TailscaleDirective.ControlURL t0)
          (TailscaleDirective.Ephemeral t0) (TailscaleDirective.WebUI t0)
          (TailscaleDirective.Hostname t0) (TailscaleDirective.Port t0)
          (TailscaleDirective.StateDir t0) (TailscaleDirective.Tags t0)
          (effectiveName t0).

(** The registry after provisioning the directives one after the other. *)
Definition provisionAll (ts : list TailscaleDirective.t)
    (siteConfigs : gmap string Node.t) : gmap string Node.t :=
  fold_left (fun reg t0 => fst (Provision t0 reg)) ts siteConfigs.

(** The name a directive gets from its first line: the argument, when
    there is one and it is not empty, else "default". *)
Definition parsedNodeName (ok : bool) (arg : string) : string :=
  if ok && negb (String.eqb arg "") then arg else "default".

(** The changes one option line can make to a Node: none, one string field,
    one tri-state set to a boolean, the port set to a 16-bit value, or tags
    appended. *)
Inductive lineChange (node : Node.t) : Node.t -> Prop :=
| change_none : lineChange node node
| change_auth_key v : lineChange node (Node.setAuthKey v node)
| change_control_url v : lineChange node (Node.setControlURL v node)
| change_hostname v : lineChange node (Node.setHostname v node)
| change_state_dir v : lineChange node (Node.setStateDir v node)
| change_ephemeral b : lineChange node (Node.setEphemeral (opt.set b) node)
| change_webui b : lineChange node (Node.setWebUI (opt.set b) node)
| change_port p : 0 <= p < 65536 -> lineChange node (Node.setPort p node)
| change_tags extra : lineChange node (Node.setTags (Node.Tags node ++ extra) node).

(** What a whole block may do to a Node: the name stays, tags are only
    appended, the port is kept or lands in the 16-bit range, and a tri-state
    is kept or holds an explicit boolean. *)
Definition blockChange (node node' : Node.t) : Prop :=
  Node.name node' = Node.name node /\
  tagsExtended node node' /\
  (Node.Port node' = Node.Port node \/ 0 <= Node.Port node' < 65536) /\
  keptOrSet (Node.Ephemeral node) (Node.Ephemeral node') /\
  keptOrSet (Node.WebUI node) (Node.WebUI node').

(** What an App-level parse may do to the node table: it stays keyed by
    name if it was, stays non-nil if it was, and keeps every name it had. *)
Definition tableChange (app app' : App.t) : Prop :=
  (keyedByName (App.nodes app) -> keyedByName (App.nodes app')) /\
  (App.Nodes app <> None -> App.Nodes app' <> None) /\
  (forall k, is_Some (App.nodes app !! k) -> is_Some (App.nodes app' !! k)).

(** * Properties *)

(** ** The dispenser only moves forward *)

Module caddyfile_facts.
Import caddyfile.

Ltac zcases :=
  repeat match goal with
  | |- context [Z.ltb ?a ?b] => destruct (Z.ltb_spec a b)
  | |- context [Z.gtb ?a ?b] => rewrite (Z.gtb_ltb a b)
  | |- context [Z.geb ?a ?b] => rewrite (Z.geb_leb a b)
  | |- context [Z.leb ?a ?b] => destruct (Z.leb_spec a b)
  end.

Lemma len_nonneg d : 0 <= len d.
Proof. unfold len. lia. Qed.

Lemma nextOnSameLine_moves d b d' :
  nextOnSameLine d = (b, d') ->
  tokens d' = tokens d /\ nesting d' = nesting d /\
  (b = false -> d' = d) /\
  (b = true -> cursor d' = cursor d + 1 /\ (cursor d < 0 \/ cursor d < len d - 1)).
Proof.
  unfold nextOnSameLine. zcases; simpl.
  - intros [= <- <-]. simpl. intuition (auto; try discriminate; lia).
  - intros [= <- <-]. intuition (auto; try discriminate; lia).
  - destruct (isNextOnNewLine _ _); simpl; intros [= <- <-]; simpl;
      intuition (auto; try discriminate; lia).
Qed.

Lemma Next_moves d b d' :
  Next d = (b, d') ->
  tokens d' = tokens d /\ nesting d' = nesting d /\
  (b = false -> d' = d) /\
  (b = true -> cursor d' = cursor d + 1 /\ cursor d < len d - 1).
Proof.
  unfold Next. zcases; simpl; intros [= <- <-]; simpl;
    intuition (auto; try discriminate; lia).
Qed.

Lemma NextArg_moves d b d' :
  NextArg d = (b, d') ->
  tokens d' = tokens d /\ nesting d' = nesting d /\
  (b = false -> cursor d' = cursor d) /\
  (b = true -> cursor d' = cursor d + 1 /\ (cursor d < 0 \/ cursor d < len d - 1)).
Proof.
  unfold NextArg. destruct (nextOnSameLine d) as [ok d1] eqn:E.
  apply nextOnSameLine_moves in E as (Ht & Hn & Hf & Htr).
  destruct ok; simpl.
  - destruct Htr as [Hc Hr]; [reflexivity|].
    destruct (String.eqb _ _); intros [= <- <-]; simpl;
      intuition (auto; try discriminate; lia).
  - rewrite (Hf eq_refl). intros [= <- <-]. intuition (auto; discriminate).
Qed.

Lemma Val_in_range d : Val d <> "" -> 0 <= cursor d < len d.
Proof.
  unfold Val. rewrite Z.geb_leb.
  destruct (Z.ltb_spec (cursor d) 0); simpl; [congruence|].
  destruct (Z.leb_spec (len d) (cursor d)); [congruence|]. lia.
Qed.

Lemma Val_eqb_in_range d s :
  s <> "" -> String.eqb (Val d) s = true -> 0 <= cursor d < len d.
Proof.
  intros Hs E. apply String.eqb_eq in E. apply Val_in_range. congruence.
Qed.

(** A successful [NextBlock] consumes at least one token and leaves the
    cursor on a token. *)
Lemma NextBlock_moves n d b d' :
  NextBlock n d = (b, d') ->
  tokens d' = tokens d /\ cursor d <= cursor d' /\
  (b = true -> cursor d < cursor d' <= len d - 1).
Proof.
  unfold NextBlock. destruct (nesting d >? n).
  - destruct (Next d) as [ok d1] eqn:E1.
    apply Next_moves in E1 as (Ht1 & Hn1 & Hf1 & Htr1).
    destruct ok; simpl.
    2:{ rewrite (Hf1 eq_refl). intros [= <- <-]. intuition (try discriminate; lia). }
    destruct Htr1 as [Hc1 Hr1]; [reflexivity|].
    assert (Hlen : len d1 = len d) by (unfold len; congruence).
    destruct (String.eqb (Val d1) "}") eqn:Eclose.
    + destruct (nextOnSameLine d1) as [same d2] eqn:E2.
      apply nextOnSameLine_moves in E2 as (Ht2 & Hn2 & Hf2 & Htr2).
      destruct same; simpl.
      * destruct Htr2 as [Hc2 Hr2]; [reflexivity|].
        assert (0 <= cursor d1 < len d1) by (eapply Val_eqb_in_range; eauto; discriminate).
        destruct (String.eqb (Val d2) "{") eqn:Eopen.
        -- assert (0 <= cursor d2 < len d2) by (eapply Val_eqb_in_range; eauto; discriminate).
           destruct (nextOnSameLine d2) as [same3 d3] eqn:E3.
           apply nextOnSameLine_moves in E3 as (Ht3 & Hn3 & Hf3 & Htr3).
           assert (Hlen2 : len d2 = len d1) by (unfold len; congruence).
           destruct same3; simpl; intros [= <- <-]; simpl.
           ++ destruct Htr3 as [Hc3 Hr3]; [reflexivity|].
              split; [congruence|]. lia.
           ++ rewrite (Hf3 eq_refl). split; [congruence|]. lia.
        -- intros [= <- <-]. split; [congruence|]. lia.
      * rewrite (Hf2 eq_refl). intros [= <- <-]. simpl. split; [congruence|]. lia.
    + destruct (String.eqb (Val d1) "{") eqn:Eopen.
      * assert (0 <= cursor d1 < len d1) by (eapply Val_eqb_in_range; eauto; discriminate).
        destruct (nextOnSameLine d1) as [same d2] eqn:E2.
        apply nextOnSameLine_moves in E2 as (Ht2 & Hn2 & Hf2 & Htr2).
        destruct same; simpl; intros [= <- <-]; simpl.
        -- destruct Htr2 as [Hc2 Hr2]; [reflexivity|]. split; [congruence|]. lia.
        -- rewrite (Hf2 eq_refl). split; [congruence|]. lia.
      * intros [= <- <-]. split; [congruence|]. lia.
  - destruct (nextOnSameLine d) as [ok d1] eqn:E1.
    apply nextOnSameLine_moves in E1 as (Ht1 & Hn1 & Hf1 & Htr1).
    destruct ok; simpl.
    2:{ rewrite (Hf1 eq_refl). intros [= <- <-]. intuition (try discriminate; lia). }
    destruct Htr1 as [Hc1 Hr1]; [reflexivity|].
    assert (Hlen : len d1 = len d) by (unfold len; congruence).
    destruct (String.eqb (Val d1) "{") eqn:Eopen; simpl.
    2:{ intros [= <- <-]. simpl. intuition (try discriminate; lia). }
    assert (0 <= cursor d1 < len d1) by (eapply Val_eqb_in_range; eauto; discriminate).
    destruct (Next d1) as [ok2 d2] eqn:E2.
    apply Next_moves in E2 as (Ht2 & Hn2 & Hf2 & Htr2).
    assert (cursor d1 <= cursor d2 <= len d - 1).
    { destruct ok2; [destruct Htr2; [reflexivity|]; lia | rewrite (Hf2 eq_refl); lia]. }
    destruct (String.eqb (Val d2) "}"); intros [= <- <-]; simpl;
      (split; [congruence|]); lia.
Qed.

Lemma remaining_le d d' :
  tokens d' = tokens d -> cursor d <= cursor d' ->
  (remaining d' <= remaining d)%nat.
Proof. unfold remaining, len. intros -> ?. lia. Qed.

Lemma remaining_lt d d' :
  tokens d' = tokens d -> cursor d < cursor d' -> cursor d < len d ->
  (remaining d' < remaining d)%nat.
Proof. unfold remaining, len. intros -> ? ?. lia. Qed.

Lemma NextArg_remaining d b d' :
  NextArg d = (b, d') ->
  (remaining d' <= remaining d)%nat /\
  (b = true -> (remaining d' < remaining d)%nat).
Proof.
  intros E. apply NextArg_moves in E as (Ht & _ & Hf & Htr).
  pose proof (len_nonneg d). destruct b.
  - destruct Htr as [Hc Hr]; [reflexivity|].
    split; [apply remaining_le | intros _; apply remaining_lt]; auto; lia.
  - split; [|discriminate]. apply remaining_le; auto. rewrite Hf; auto. lia.
Qed.

Lemma NextBlock_remaining n d b d' :
  NextBlock n d = (b, d') ->
  (remaining d' <= remaining d)%nat /\
  (b = true -> (remaining d' < remaining d)%nat).
Proof.
  intros E. apply NextBlock_moves in E as (Ht & Hle & Htr).
  split; [apply remaining_le; auto|].
  intros ->. destruct Htr; [reflexivity|]. apply remaining_lt; auto; lia.
Qed.

Lemma Next_remaining d b d' :
  Next d = (b, d') ->
  (remaining d' <= remaining d)%nat /\
  (b = true -> (remaining d' < remaining d)%nat).
Proof.
  intros E. apply Next_moves in E as (Ht & _ & Hf & Htr). destruct b.
  - destruct Htr as [Hc Hr]; [reflexivity|].
    split; [apply remaining_le | intros _; apply remaining_lt]; auto; lia.
  - rewrite (Hf eq_refl). split; [lia | discriminate].
Qed.

End caddyfile_facts.

(** ** The fuel taken from [remaining] is enough *)

Section Fuel.
Import caddyfile caddyfile_facts.

Lemma appendArgs_total fuel d tags :
  (remaining d < fuel)%nat ->
  exists d' tags', appendArgs fuel d tags = Some (d', tags') /\
                   (remaining d' <= remaining d)%nat.
Proof.
  revert d tags. induction fuel as [|fuel IH]; intros d tags Hf; [lia|].
  simpl. destruct (NextArg d) as [ok d1] eqn:E.
  apply NextArg_remaining in E as [Hle Hlt]. destruct ok; simpl.
  - specialize (Hlt eq_refl).
    destruct (IH d1 (tags ++ [Val d1])) as (d' & tags' & -> & Hr); [lia|].
    exists d', tags'. split; [reflexivity | lia].
  - eauto.
Qed.

Lemma appendArgs_mono fuel fuel' d tags r :
  appendArgs fuel d tags = Some r -> (fuel <= fuel')%nat ->
  appendArgs fuel' d tags = Some r.
Proof.
  revert fuel' d tags. induction fuel as [|fuel IH]; intros fuel' d tags; [discriminate|].
  destruct fuel' as [|fuel']; [lia|]. simpl.
  destruct (NextArg d) as [[] d1]; simpl; auto. intros ? ?. apply IH; [assumption | lia].
Qed.

(** Every exit of the node switch, case by case. *)
Ltac switch_cases :=
  repeat match goal with
  | |- context [if String.eqb ?a ?b then _ else _] => destruct (String.eqb a b)
  | |- context [let '(_, _) := NextArg ?d in _] =>
      let E := fresh "E" in
      destruct (NextArg d) as [[] ?] eqn:E; simpl;
      apply NextArg_remaining in E as [? ?]
  | |- context [match strconv.ParseBool ?s with _ => _ end] =>
      destruct (strconv.ParseBool s) as [? []]
  | |- context [match strconv.ParseUint ?s ?b with _ => _ end] =>
      destruct (strconv.ParseUint s b) as [? []]
  end.

Lemma nodeOption_total fuel d node :
  (remaining d < fuel)%nat ->
  exists d' node' e, nodeOption fuel d node = Some (d', node', e) /\
                     (remaining d' <= remaining d)%nat.
Proof.
  intros Hf. unfold nodeOption. switch_cases; eauto 6.
  destruct (appendArgs_total fuel d (Node.Tags node) Hf) as (d' & tags' & -> & ?).
  eauto 6.
Qed.

Lemma nodeOption_mono fuel fuel' d node r :
  nodeOption fuel d node = Some r -> (fuel <= fuel')%nat ->
  nodeOption fuel' d node = Some r.
Proof.
  unfold nodeOption. intros E Hle.
  repeat match goal with
  | _ : context [if String.eqb ?a ?b then _ else _] |- _ => destruct (String.eqb a b)
  end; auto.
  destruct (appendArgs fuel d (Node.Tags node)) as [[d' tags']|] eqn:Ea; [|discriminate].
  rewrite (appendArgs_mono _ _ _ _ _ Ea Hle). assumption.
Qed.

Lemma parseNodeOptionsFromDispenser_loop_total fuel d node :
  (remaining d < fuel)%nat ->
  exists d' node' e,
    parseNodeOptionsFromDispenser_loop fuel d node = Some (d', node', e) /\
    (remaining d' <= remaining d)%nat.
Proof.
  revert d node. induction fuel as [|fuel IH]; intros d node Hf; [lia|].
  simpl. destruct (NextBlock 0 d) as [more d1] eqn:E.
  apply NextBlock_remaining in E as [Hle Hlt]. destruct more; simpl; [|eauto 6].
  specialize (Hlt eq_refl).
  destruct (nodeOption_total fuel d1 node) as (d2 & node2 & e & -> & Hr); [lia|].
  destruct e; [exists d2, node2, (Some e); split; [reflexivity | lia]|].
  destruct (IH d2 node2) as (d3 & node3 & e3 & -> & ?); [lia|].
  exists d3, node3, e3. split; [reflexivity | lia].
Qed.

Lemma parseNodeOptionsFromDispenser_loop_mono fuel fuel' d node r :
  parseNodeOptionsFromDispenser_loop fuel d node = Some r -> (fuel <= fuel')%nat ->
  parseNodeOptionsFromDispenser_loop fuel' d node = Some r.
Proof.
  revert fuel' d node. induction fuel as [|fuel IH]; intros fuel' d node; [discriminate|].
  destruct fuel' as [|fuel']; [lia|]. simpl.
  destruct (NextBlock 0 d) as [[] d1]; simpl; auto.
  destruct (nodeOption fuel d1 node) as [[[d2 node2] e]|] eqn:Eo; [|discriminate].
  intros E Hle. rewrite (nodeOption_mono _ fuel' _ _ _ Eo) by lia.
  destruct e; [assumption|]. apply IH; [assumption | lia].
Qed.

(** [parseNodeOptionsFromDispenser] returns on every dispenser. *)
Lemma parseNodeOptionsFromDispenser_returns d node :
  exists d' node' e,
    parseNodeOptionsFromDispenser d node = Some (d', node', e) /\
    (remaining d' <= remaining d)%nat.
Proof. apply parseNodeOptionsFromDispenser_loop_total. lia. Qed.

Lemma parseNodeOptionsFromDispenser_total d node :
  exists d' node' e, parseNodeOptionsFromDispenser d node = Some (d', node', e).
Proof.
  destruct (parseNodeOptionsFromDispenser_returns d node) as (d' & n & e & E & _). eauto.
Qed.

(** Any fuel above [remaining d] gives the result of the top-level call. *)
Lemma parseNodeOptionsFromDispenser_loop_enough fuel d node :
  (remaining d < fuel)%nat ->
  parseNodeOptionsFromDispenser_loop fuel d node = parseNodeOptionsFromDispenser d node.
Proof.
  intros Hf. destruct (parseNodeOptionsFromDispenser_total d node) as (d' & n' & e & E).
  rewrite E. unfold parseNodeOptionsFromDispenser in E.
  eapply parseNodeOptionsFromDispenser_loop_mono; [exact E | lia].
Qed.

(** One turn of the loop: after [NextBlock] found a line, the switch runs
    on it and either returns its error or hands over to the parse of the
    rest of the block. *)
Lemma parseNodeOptionsFromDispenser_step d d1 node :
  NextBlock 0 d = (true, d1) ->
  parseNodeOptionsFromDispenser d node =
    match nodeOption (remaining d) d1 node with
    | Some (d2, node2, None) => parseNodeOptionsFromDispenser d2 node2
    | stop => stop
    end.
Proof.
  intros E. unfold parseNodeOptionsFromDispenser at 1. simpl. rewrite E. simpl.
  pose proof (NextBlock_remaining _ _ _ _ E) as [_ Hlt]. specialize (Hlt eq_refl).
  destruct (nodeOption_total (remaining d) d1 node Hlt) as (d2 & node2 & e & -> & Hr).
  destruct e; [reflexivity|]. apply parseNodeOptionsFromDispenser_loop_enough. lia.
Qed.


End Fuel.

(** ** Segments, named nodes and the App loop return as well *)

Section FuelApp.
Import caddyfile caddyfile_facts.

Lemma segmentArgs_total fuel d tkns :
  (remaining d < fuel)%nat ->
  exists d' tkns', segmentArgs fuel d tkns = Some (d', tkns' ) /\
    tokens d' = tokens d /\ cursor d <= cursor d' /\
    (length tkns <= length tkns')%nat.
Proof.
  revert d tkns. induction fuel as [|fuel IH]; intros d tkns Hf; [lia|].
  simpl. destruct (NextArg d) as [ok d1] eqn:E.
  pose proof (NextArg_remaining _ _ _ E) as [Hle Hlt].
  apply NextArg_moves in E as (Ht & _ & Hfa & Htr). destruct ok; simpl.
  - destruct Htr as [Hc _]; [reflexivity|].
    destruct (IH d1 (tkns ++ [Token_ d1])) as (d' & tkns' & -> & Ht' & Hc' & Hl);
      [specialize (Hlt eq_refl); lia|].
    rewrite length_app in Hl. simpl in Hl.
    exists d', tkns'. repeat split; [congruence | lia | lia].
  - exists d1, tkns. rewrite (Hfa eq_refl). repeat split; auto; lia.
Qed.

Lemma Prev_Next_moves d d1 d2 b1 b2 :
  cursor d <= len d - 1 ->
  Prev d = (b1, d1) -> Next d1 = (b2, d2) ->
  tokens d2 = tokens d /\ cursor d <= cursor d2 <= len d - 1.
Proof.
  unfold Prev, Next, len. intros Hc.
  rewrite Z.gtb_ltb. destruct (Z.ltb_spec (-1) (cursor d)); intros [= <- <-]; simpl.
  - destruct (Z.ltb_spec (cursor d - 1) (Z.of_nat (length (tokens d)) - 1));
      intros [= <- <-]; simpl; split; auto; lia.
  - destruct (Z.ltb_spec (cursor d) (Z.of_nat (length (tokens d)) - 1));
      intros [= <- <-]; simpl; split; auto; lia.
Qed.

Lemma segmentBlock_total fuel n0 d opened tkns :
  (remaining d < fuel)%nat ->
  exists d' opened' tkns',
    segmentBlock fuel n0 d opened tkns = Some (d', opened', tkns') /\
    tokens d' = tokens d /\ cursor d <= cursor d' /\
    (length tkns <= length tkns')%nat.
Proof.
  revert d opened tkns. induction fuel as [|fuel IH]; intros d opened tkns Hf; [lia|].
  simpl. destruct (NextBlock n0 d) as [ok d1] eqn:E.
  pose proof (NextBlock_remaining _ _ _ _ E) as [Hle Hlt].
  apply NextBlock_moves in E as (Ht & Hc & Htr). destruct ok; simpl.
  2:{ exists d1, opened, tkns. repeat split; auto. }
  destruct Htr as [Hc1 Hc2]; [reflexivity|].
  assert (Hlen : len d1 = len d) by (unfold len; congruence).
  destruct opened; simpl.
  - destruct (IH d1 true (tkns ++ [Token_ d1])) as (d' & o' & tkns' & -> & Ht' & Hc' & Hl);
      [specialize (Hlt eq_refl); lia|].
    rewrite length_app in Hl. simpl in Hl.
    exists d', o', tkns'. repeat split; [congruence | lia | lia].
  - destruct (Prev d1) as [b1 d2] eqn:Ep. destruct (Next d2) as [b2 d3] eqn:En.
    assert (Hin : cursor d1 <= len d1 - 1) by lia.
    destruct (Prev_Next_moves _ _ _ _ _ Hin Ep En) as (Ht3 & Hc3).
    assert ((remaining d3 < fuel)%nat).
    { assert ((remaining d3 < remaining d)%nat); [|lia].
      apply remaining_lt; [congruence | lia | lia]. }
    destruct (IH d3 true ((tkns ++ [Token_ d2]) ++ [Token_ d3]))
      as (d' & o' & tkns' & -> & Ht' & Hc' & Hl); [assumption|].
    rewrite !length_app in Hl. simpl in Hl.
    exists d', o', tkns'. repeat split; [congruence | lia | lia].
Qed.

(** [NextSegment] returns; the segment starts with the current token, so it
    is never empty, and the dispenser has not moved back. *)
Lemma NextSegment_total d :
  exists d' tkns, NextSegment d = Some (d', tkns) /\
    tokens d' = tokens d /\ cursor d <= cursor d' /\ (1 <= length tkns)%nat.
Proof.
  unfold NextSegment.
  destruct (segmentArgs_total (S (remaining d)) d [Token_ d])
    as (d1 & t1 & -> & Ht1 & Hc1 & Hl1); [lia|].
  destruct (segmentBlock_total (S (remaining d1)) (Nesting d1) d1 false t1)
    as (d2 & o2 & t2 & -> & Ht2 & Hc2 & Hl2); [lia|].
  simpl in Hl1. destruct o2.
  - exists d2, (t2 ++ [Token_ d2]). rewrite length_app. simpl.
    repeat split; [congruence | lia | lia].
  - exists d2, t2. repeat split; [congruence | lia | lia].
Qed.

Lemma parseNamedNodeConfig_total d :
  exists d' node e, parseNamedNodeConfig d = Some (d', node, e) /\
                    (remaining d' <= remaining d)%nat.
Proof.
  unfold parseNamedNodeConfig, NewFromNextSegment.
  destruct (NextSegment_total d) as (d1 & tkns & -> & Ht & Hc & Hl).
  assert ((remaining d1 <= remaining d)%nat) by (apply remaining_le; auto).
  destruct (Next (NewDispenser tkns)) as [ok seg]. destruct ok; simpl; [|eauto 6].
  destruct (parseNodeOptionsFromDispenser_total seg (Node.setName (Val d) Node.zero))
    as (s' & node & e & ->).
  eauto 6.
Qed.

Ltac switch_cases :=
  repeat match goal with
  | |- context [if String.eqb ?a ?b then _ else _] => destruct (String.eqb a b)
  | |- context [let '(_, _) := NextArg ?d in _] =>
      let E := fresh "E" in
      destruct (NextArg d) as [[] ?] eqn:E; simpl;
      apply NextArg_remaining in E as [? ?]
  | |- context [match strconv.ParseBool ?s with _ => _ end] =>
      destruct (strconv.ParseBool s) as [? []]
  end.

Lemma appOption_total fuel d app :
  (remaining d < fuel)%nat ->
  exists d' app' e, appOption fuel d app = Some (d', app', e) /\
                    (remaining d' <= remaining d)%nat.
Proof.
  intros Hf. unfold appOption. switch_cases; eauto 6.
  - destruct (appendArgs_total fuel d (App.Tags app) Hf) as (d' & tags' & -> & ?).
    eauto 6.
  - destruct (parseNamedNodeConfig_total d) as (d' & node & e & -> & ?).
    destruct e; eauto 6.
Qed.

Lemma appOption_mono fuel fuel' d app r :
  appOption fuel d app = Some r -> (fuel <= fuel')%nat ->
  appOption fuel' d app = Some r.
Proof.
  unfold appOption. intros E Hle.
  repeat match goal with
  | _ : context [if String.eqb ?a ?b then _ else _] |- _ => destruct (String.eqb a b)
  end; auto.
  destruct (appendArgs fuel d (App.Tags app)) as [[d' tags']|] eqn:Ea; [|discriminate].
  rewrite (appendArgs_mono _ _ _ _ _ Ea Hle). assumption.
Qed.

Lemma parseAppOptions_loop_total fuel d app :
  (remaining d < fuel)%nat ->
  exists d' app' e, parseAppOptions_loop fuel d app = Some (d', app', e) /\
                    (remaining d' <= remaining d)%nat.
Proof.
  revert d app. induction fuel as [|fuel IH]; intros d app Hf; [lia|].
  simpl. destruct (NextBlock 0 d) as [more d1] eqn:E.
  apply NextBlock_remaining in E as [Hle Hlt]. destruct more; simpl; [|eauto 6].
  specialize (Hlt eq_refl).
  destruct (appOption_total fuel d1 app) as (d2 & app2 & e & -> & Hr); [lia|].
  destruct e; [exists d2, app2, (Some e); split; [reflexivity | lia]|].
  destruct (IH d2 app2) as (d3 & app3 & e3 & -> & ?); [lia|].
  exists d3, app3, e3. split; [reflexivity | lia].
Qed.

Lemma parseAppOptions_loop_mono fuel fuel' d app r :
  parseAppOptions_loop fuel d app = Some r -> (fuel <= fuel')%nat ->
  parseAppOptions_loop fuel' d app = Some r.
Proof.
  revert fuel' d app. induction fuel as [|fuel IH]; intros fuel' d app; [discriminate|].
  destruct fuel' as [|fuel']; [lia|]. simpl.
  destruct (NextBlock 0 d) as [[] d1]; simpl; auto.
  destruct (appOption fuel d1 app) as [[[d2 app2] e]|] eqn:Eo; [|discriminate].
  intros E Hle. rewrite (appOption_mono _ fuel' _ _ _ Eo) by lia.
  destruct e; [assumption|]. apply IH; [assumption | lia].
Qed.

Lemma parseAppOptions_total d app :
  exists d' app' e, parseAppOptions d app = Some (d', app', e).
Proof.
  destruct (parseAppOptions_loop_total (S (remaining d)) d app) as (d' & a & e & E & _);
    [lia | eauto].
Qed.

Lemma parseAppOptions_loop_enough fuel d app :
  (remaining d < fuel)%nat ->
  parseAppOptions_loop fuel d app = parseAppOptions d app.
Proof.
  intros Hf. destruct (parseAppOptions_total d app) as (d' & a' & e & E).
  rewrite E. unfold parseAppOptions in E.
  eapply parseAppOptions_loop_mono; [exact E | lia].
Qed.

Lemma parseAppOptions_step d d1 app :
  NextBlock 0 d = (true, d1) ->
  parseAppOptions d app =
    match appOption (remaining d) d1 app with
    | Some (d2, app2, None) => parseAppOptions d2 app2
    | stop => stop
    end.
Proof.
  intros E. unfold parseAppOptions at 1. simpl. rewrite E. simpl.
  pose proof (NextBlock_remaining _ _ _ _ E) as [_ Hlt]. specialize (Hlt eq_refl).
  destruct (appOption_total (remaining d) d1 app Hlt) as (d2 & app2 & e & -> & Hr).
  destruct e; [reflexivity|]. apply parseAppOptions_loop_enough. lia.
Qed.

(** [parseAppConfig] returns on every dispenser. *)
Lemma parseAppConfig_total d :
  exists d' app e, parseAppConfig d = Some (d', app, e).
Proof.
  unfold parseAppConfig. destruct (Next d) as [[] d1]; simpl; [|eauto].
  destruct (parseAppOptions_total d1 (App.setNodes (Some ∅) App.zero))
    as (d2 & app & e & ->).
  destruct e; eauto.
Qed.

End FuelApp.

(** ** The two entry points of the node grammar *)

Lemma appendArgsH_helper fuel h tags :
  appendArgsH fuel h tags =
    match appendArgs fuel (httpcaddyfile.Dispenser h) tags with
    | Some (d, tags') => Some (httpcaddyfile.mkHelper d, tags')
    | None => None
    end.
Proof.
  revert h tags. induction fuel as [|fuel IH]; intros [d] tags; [reflexivity|].
  simpl. unfold httpcaddyfile.promote.
  destruct (caddyfile.NextArg d) as [[] d1]; simpl; [apply IH | reflexivity].
Qed.

Lemma nodeOptionH_helper fuel h node :
  nodeOptionH fuel h node = asHelper (nodeOption fuel (httpcaddyfile.Dispenser h) node).
Proof.
  destruct h as [d]. unfold nodeOptionH, nodeOption. simpl.
  repeat match goal with
  | |- context [if String.eqb ?a ?b then _ else _] => destruct (String.eqb a b)
  end; try reflexivity;
  try (unfold httpcaddyfile.promote; destruct (caddyfile.NextArg d) as [[] ?]; simpl;
       first [ reflexivity
             | destruct (strconv.ParseBool _) as [? []]; reflexivity
             | destruct (strconv.ParseUint _ _) as [? []]; reflexivity ]).
  rewrite appendArgsH_helper. simpl.
  destruct (appendArgs fuel d (Node.Tags node)) as [[? ?]|]; reflexivity.
Qed.

Lemma parseNodeOptionsFromHelper_helper fuel h node :
  parseNodeOptionsFromHelper fuel h node =
    asHelper (parseNodeOptionsFromDispenser_loop fuel (httpcaddyfile.Dispenser h) node).
Proof.
  revert h node. induction fuel as [|fuel IH]; intros [d] node; [reflexivity|].
  simpl. unfold httpcaddyfile.promote.
  destruct (caddyfile.NextBlock 0 d) as [[] d1]; simpl; [|reflexivity].
  rewrite nodeOptionH_helper. simpl.
  destruct (nodeOption fuel d1 node) as [[[d2 node2] [e|]]|]; simpl;
    [reflexivity | apply IH | reflexivity].
Qed.

(** With the fuel [parseTailscaleDirective] gives it, the helper parser is
    the dispenser parser on the embedded dispenser. *)
Lemma parseNodeOptionsFromHelper_enough fuel h node :
  (caddyfile.remaining (httpcaddyfile.Dispenser h) < fuel)%nat ->
  parseNodeOptionsFromHelper fuel h node =
    asHelper (parseNodeOptionsFromDispenser (httpcaddyfile.Dispenser h) node).
Proof.
  intros Hf. rewrite parseNodeOptionsFromHelper_helper.
  rewrite parseNodeOptionsFromDispenser_loop_enough by assumption. reflexivity.
Qed.

(** C2: on every token stream and from every initial [Node], the parser
    driven through an [httpcaddyfile.Helper] and the parser driven through
    the [caddyfile.Dispenser] it embeds return the same [Node] and the same
    error, and leave the dispenser at the same position; this holds for
    every bound on the number of loop turns, and with the bound the
    directive parser supplies both calls do return. *)
Theorem C2_helper_and_dispenser_parsers_agree :
  (forall fuel h node,
     parseNodeOptionsFromHelper fuel h node =
       asHelper (parseNodeOptionsFromDispenser_loop fuel (httpcaddyfile.Dispenser h) node)) /\
  (forall d node,
     exists d' node' e,
       parseNodeOptionsFromDispenser d node = Some (d', node', e) /\
       parseNodeOptionsFromHelper (S (caddyfile.remaining d)) (httpcaddyfile.mkHelper d) node
         = Some (httpcaddyfile.mkHelper d', node', e)).
Proof.
  split; [apply parseNodeOptionsFromHelper_helper|].
  intros d node.
  destruct (parseNodeOptionsFromDispenser_total d node) as (d' & node' & e & E).
  exists d', node', e. split; [assumption|].
  rewrite parseNodeOptionsFromHelper_enough by (simpl; lia).
  simpl. rewrite E. reflexivity.
Qed.

#[local] Opaque parseNodeOptionsFromHelper.

(** [parseTailscaleDirective] returns on every helper. *)
Lemma parseTailscaleDirective_loop_total fuel h directive :
  (caddyfile.remaining (httpcaddyfile.Dispenser h) < fuel)%nat ->
  exists h' t e, parseTailscaleDirective_loop fuel h directive = Some (h', t, e).
Proof.
  revert h directive. induction fuel as [|fuel IH]; intros [d] directive Hf; [lia|].
  simpl in Hf. simpl. unfold httpcaddyfile.promote.
  destruct (caddyfile.Next d) as [more d1] eqn:E1.
  apply caddyfile_facts.Next_remaining in E1 as [Hle1 Hlt1].
  destruct more; simpl; [|eauto].
  destruct (caddyfile.NextArg d1) as [ok d2] eqn:E2.
  apply caddyfile_facts.NextArg_remaining in E2 as [Hle2 _]. simpl.
  match goal with
  | |- context [parseNodeOptionsFromHelper ?f ?h ?n] =>
      rewrite (parseNodeOptionsFromHelper_enough f h n) by (simpl; lia)
  end.
  simpl.
  destruct (parseNodeOptionsFromDispenser_returns d2 Node.zero) as (d3 & node & e & E3 & Hle3).
  rewrite E3. simpl. destruct e; [eauto|].
  apply IH. simpl. specialize (Hlt1 eq_refl). lia.
Qed.

Lemma parseTailscaleDirective_total h :
  exists h' t e, parseTailscaleDirective h = Some (h', t, e).
Proof. apply parseTailscaleDirective_loop_total. lia. Qed.

#[local] Transparent parseNodeOptionsFromHelper.

(** ** The site-configuration registry *)

Lemma getSiteConfig_set_same name node reg :
  getSiteConfig name (setSiteConfig name node reg) = (node, true).
Proof. unfold getSiteConfig, setSiteConfig. rewrite lookup_insert_eq. reflexivity. Qed.

Lemma getSiteConfig_set_other name other node reg :
  other <> name ->
  getSiteConfig other (setSiteConfig name node reg) = getSiteConfig other reg.
Proof.
  intros Hne. unfold getSiteConfig, setSiteConfig.
  rewrite lookup_insert_ne by congruence. reflexivity.
Qed.

Lemma afterSets_app calls1 calls2 reg :
  afterSets (calls1 ++ calls2) reg = afterSets calls2 (afterSets calls1 reg).
Proof. apply fold_left_app. Qed.

Lemma afterSets_untouched calls name reg :
  ~ In name (map fst calls) ->
  getSiteConfig name (afterSets calls reg) = getSiteConfig name reg.
Proof.
  revert reg. induction calls as [|[k v] calls IH]; intros reg Hnot; [reflexivity|].
  simpl in *. rewrite IH by tauto. apply getSiteConfig_set_other. intros ->. tauto.
Qed.

Lemma afterSets_found calls name :
  snd (getSiteConfig name (afterSets calls siteConfigs0)) = true <-> In name (map fst calls).
Proof.
  induction calls as [|[k v] calls IH] using rev_ind.
  - simpl. split; [discriminate | tauto].
  - rewrite afterSets_app, map_app, in_app_iff. simpl.
    destruct (String.eqb_spec name k) as [->|Hne].
    + rewrite getSiteConfig_set_same. simpl. tauto.
    + rewrite getSiteConfig_set_other by assumption. rewrite IH.
      intuition congruence.
Qed.

(** C3: [setSiteConfig] is an upsert and the last write wins;
    [getSiteConfig] reports [true] exactly for the names that were set since
    the registry was created, and then returns the Node of the latest set
    for that name; a name never set reads as not found; a set leaves the
    entry of every other name as it was. *)
Theorem C3_registry_set_get :
  (forall reg name A B,
     getSiteConfig name (setSiteConfig name B (setSiteConfig name A reg)) = (B, true)) /\
  (forall calls name,
     snd (getSiteConfig name (afterSets calls siteConfigs0)) = true
     <-> In name (map fst calls)) /\
  (forall calls name node later,
     ~ In name (map fst later) ->
     getSiteConfig name (afterSets (calls ++ (name, node) :: later) siteConfigs0)
       = (node, true)) /\
  (forall calls name,
     ~ In name (map fst calls) ->
     getSiteConfig name (afterSets calls siteConfigs0) = (Node.zero, false)) /\
  (forall reg name node other,
     other <> name ->
     getSiteConfig other (setSiteConfig name node reg) = getSiteConfig other reg).
Proof.
  split; [intros; apply getSiteConfig_set_same|].
  split; [apply afterSets_found|].
  split.
  { intros calls name node later Hnot.
    rewrite afterSets_app. simpl. rewrite afterSets_untouched by assumption.
    apply getSiteConfig_set_same. }
  split.
  { intros calls name Hnot. rewrite afterSets_untouched by assumption. reflexivity. }
  intros. apply getSiteConfig_set_other. assumption.
Qed.

(** ** Provisioning a directive *)

(** C4: [Provision] returns no error and stores, under the directive's
    [NodeName] or under "default" when that is empty, the Node whose eight
    option fields are the directive's own fields and whose name is that
    key; nothing else in the registry changes, whatever it held before, so no
    other value reaches the Node.  The directive [tailscale node1 { port
    8443 }], parsed and provisioned into the empty registry, gives the entry
    "node1" with port 8443 and every other option zero. *)
Theorem C4_provision_publishes_directive_fields :
  (forall t0 reg,
     snd (Provision t0 reg) = None /\
     getSiteConfig (effectiveName t0) (fst (Provision t0 reg)) =
       (Node.mk (TailscaleDirective.AuthKey t0) (TailscaleDirective.ControlURL t0)
                (TailscaleDirective.Ephemeral t0) (TailscaleDirective.WebUI t0)
                (TailscaleDirective.Hostname t0) (TailscaleDirective.Port t0)
                (TailscaleDirective.StateDir t0) (TailscaleDirective.Tags t0)
                (effectiveName t0),
        true) /\
     (forall other, other <> effectiveName t0 ->
        getSiteConfig other (fst (Provision t0 reg)) = getSiteConfig other reg)) /\
  (exists h t0,
     parseTailscaleDirective directive_node1_port = Some (h, Some t0, None) /\
     getSiteConfig "node1" (fst (Provision t0 siteConfigs0)) =
       (Node.setName "node1" (Node.setPort 8443 Node.zero), true)).
Proof.
  split.
  { intros t0 reg. unfold Provision, effectiveName. simpl.
    split; [reflexivity|]. split.
    - apply getSiteConfig_set_same.
    - intros other Hne. apply getSiteConfig_set_other. assumption. }
  eexists _, _. split; [vm_compute; reflexivity|]. vm_compute. reflexivity.
Qed.

(** ** strconv: what the two conversions accept *)

Section Conversions.
Import strconv.

Lemma existsb_eqb_true s l : In s l -> existsb (String.eqb s) l = true.
Proof.
  intros Hin. apply existsb_exists. exists s.
  split; [assumption | apply String.eqb_refl].
Qed.

Lemma existsb_eqb_false s l : ~ In s l -> existsb (String.eqb s) l = false.
Proof.
  intros Hnot. destruct (existsb (String.eqb s) l) eqn:E; [|reflexivity].
  apply existsb_exists in E as (x & Hin & Heq). apply String.eqb_eq in Heq. subst. tauto.
Qed.

Lemma ParseBool_true s : In s trueWords -> ParseBool s = (true, None).
Proof. intros Hin. unfold ParseBool. rewrite existsb_eqb_true by assumption. reflexivity. Qed.

Lemma ParseBool_false s : In s falseWords -> ParseBool s = (false, None).
Proof.
  intros Hin. unfold ParseBool.
  assert (existsb (String.eqb s) trueWords = false) as ->.
  { simpl in Hin. decompose [or] Hin; subst; try reflexivity. contradiction. }
  rewrite existsb_eqb_true by assumption. reflexivity.
Qed.

(** Anything but the twelve accepted spellings is a syntax error that
    quotes the input. *)
Lemma ParseBool_error s :
  ~ In s (trueWords ++ falseWords) ->
  ParseBool s = (false, Some (syntaxError "ParseBool" s)).
Proof.
  intros Hnot. unfold ParseBool.
  rewrite !existsb_eqb_false; [reflexivity | |]; intros Hin; apply Hnot, in_app_iff; tauto.
Qed.

Lemma isDigit_range c : isDigit c = true -> 0 <= byteOf c - 48 <= 9.
Proof.
  unfold isDigit. intros Hc. apply andb_true_iff in Hc as [H1 H2].
  apply Z.leb_le in H1, H2. lia.
Qed.

Lemma valueFrom_ge acc s : allDigits s = true -> 0 <= acc -> acc <= valueFrom acc s.
Proof.
  revert acc. induction s as [|c s IH]; intros acc Hd Hacc; simpl; [lia|].
  simpl in Hd. apply andb_true_iff in Hd as [Hc Hs]. apply isDigit_range in Hc.
  specialize (IH (acc * 10 + (byteOf c - 48)) Hs). lia.
Qed.

Lemma cutoff_10 : maxUint64 / 10 + 1 = 1844674407370955162.
Proof. reflexivity. Qed.

(** One digit more: below the cut-off nothing wraps. *)
Lemma parseUintLoop_digit s0 c s n :
  0 <= n <= 65535 -> isDigit c = true ->
  parseUintLoop s0 (maxUint64 / 10 + 1) 65535 (String c s) n =
    if n * 10 + (byteOf c - 48) >? 65535
    then (65535, Some (rangeError fnParseUint s0))
    else parseUintLoop s0 (maxUint64 / 10 + 1) 65535 s (n * 10 + (byteOf c - 48)).
Proof.
  intros Hn Hc. pose proof (isDigit_range c Hc) as Hd.
  cbn [parseUintLoop]. fold (isDigit c). rewrite Hc, cutoff_10.
  rewrite Z.geb_leb. destruct (Z.leb_spec 1844674407370955162 n); [lia|].
  unfold wrap64. rewrite (Z.mod_small (n * 10)) by lia.
  rewrite (Z.mod_small (n * 10 + _)) by lia.
  destruct (Z.ltb_spec (n * 10 + (byteOf c - 48)) (n * 10)); [lia|]. reflexivity.
Qed.

Lemma parseUintLoop_ok s0 s n :
  0 <= n <= 65535 -> allDigits s = true -> valueFrom n s <= 65535 ->
  parseUintLoop s0 (maxUint64 / 10 + 1) 65535 s n = (valueFrom n s, None).
Proof.
  revert n. induction s as [|c s IH]; intros n Hn Hd Hv; [reflexivity|].
  simpl in Hd. apply andb_true_iff in Hd as [Hc Hs].
  rewrite parseUintLoop_digit by assumption. simpl in Hv.
  pose proof (isDigit_range c Hc).
  pose proof (valueFrom_ge (n * 10 + (byteOf c - 48)) s Hs ltac:(lia)).
  rewrite Z.gtb_ltb. destruct (Z.ltb_spec 65535 (n * 10 + (byteOf c - 48))); [lia|].
  simpl. apply IH; [lia | assumption | assumption].
Qed.

Lemma parseUintLoop_err s0 s n :
  0 <= n <= 65535 -> allDigits s = false \/ 65535 < valueFrom n s ->
  exists v kind,
    parseUintLoop s0 (maxUint64 / 10 + 1) 65535 s n =
      (v, Some (mkNumError fnParseUint s0 kind)).
Proof.
  revert n. induction s as [|c s IH]; intros n Hn Hbad.
  { simpl in Hbad. destruct Hbad; [discriminate | lia]. }
  destruct (isDigit c) eqn:Hc.
  - rewrite parseUintLoop_digit by assumption.
    pose proof (isDigit_range c Hc).
    rewrite Z.gtb_ltb. destruct (Z.ltb_spec 65535 (n * 10 + (byteOf c - 48))).
    + eexists _, _. reflexivity.
    + apply IH; [lia|]. simpl in Hbad. rewrite Hc in Hbad. exact Hbad.
  - cbn [parseUintLoop]. fold (isDigit c). rewrite Hc. eexists _, _. reflexivity.
Qed.

(** [ParseUint(s, 10, 16)] succeeds exactly on the numerals of 0..65535,
    and then returns the number denoted. *)
Lemma ParseUint_16_ok s :
  isDecimal s = true -> decimalValue s <= 65535 ->
  ParseUint s 16 = (decimalValue s, None).
Proof.
  unfold isDecimal, ParseUint. intros Hd Hv. apply andb_true_iff in Hd as [Hne Hd].
  destruct (String.eqb s ""); [discriminate|].
  change (wrap64 (Z.shiftl 1 16 - 1)) with 65535.
  apply parseUintLoop_ok; [lia | assumption | assumption].
Qed.

Lemma ParseUint_16_err s :
  isDecimal s = false \/ 65535 < decimalValue s ->
  exists v kind, ParseUint s 16 = (v, Some (mkNumError fnParseUint s kind)).
Proof.
  unfold isDecimal, ParseUint. intros Hbad.
  destruct (String.eqb s "") eqn:Hs; [eexists _, _; reflexivity|].
  change (wrap64 (Z.shiftl 1 16 - 1)) with 65535.
  apply parseUintLoop_err; [lia|]. simpl in Hbad. exact Hbad.
Qed.




End Conversions.

(** ** One option line of a node block *)



Lemma not_keyword_eqb tok l k : ~ In tok l -> In k l -> String.eqb tok k = false.
Proof. intros Hnot Hin. apply String.eqb_neq. intros ->. tauto. Qed.


(** Every line has its arguments: [lineArgs] is total. *)
Lemma lineArgs_exists d : exists args d', lineArgs d args d'.
Proof.
  remember (caddyfile.remaining d) as m eqn:Hm. revert d Hm.
  induction m as [m IH] using lt_wf_ind. intros d ->.
  destruct (caddyfile.NextArg d) as [[] d1] eqn:E.
  - pose proof (caddyfile_facts.NextArg_remaining _ _ _ E) as [_ Hlt].
    destruct (IH _ (Hlt eq_refl) d1 eq_refl) as (args & d' & Hl).
    eexists _, _. eapply lineArgs_arg; eassumption.
  - eexists _, _. apply lineArgs_end. eassumption.
Qed.

(** C5: on a line whose keyword is [ephemeral] or [webui], no argument
    sets the tri-state field to true; the argument "true" or "false" (or any
    value ParseBool accepts) sets it to that value; any other argument makes
    the parse return the wrapped ParseBool error at once, with the Node,
    hence the tri-state field, exactly as it was before the line. *)
Theorem C5_ephemeral_webui_tristate d d1 node kw :
  caddyfile.NextBlock 0 d = (true, d1) ->
  caddyfile.Val d1 = kw ->
  In kw ["ephemeral"; "webui"] ->
  (forall d2, caddyfile.NextArg d1 = (false, d2) ->
     parseNodeOptionsFromDispenser d node =
       parseNodeOptionsFromDispenser d2 (setTriState kw (opt.set true) node)) /\
  (forall d2 v, caddyfile.NextArg d1 = (true, d2) ->
     strconv.ParseBool (caddyfile.Val d2) = (v, None) ->
     parseNodeOptionsFromDispenser d node =
       parseNodeOptionsFromDispenser d2 (setTriState kw (opt.set v) node)) /\
  (strconv.ParseBool "true" = (true, None) /\ strconv.ParseBool "false" = (false, None)) /\
  (forall d2, caddyfile.NextArg d1 = (true, d2) ->
     ~ In (caddyfile.Val d2) (strconv.trueWords ++ strconv.falseWords) ->
     parseNodeOptionsFromDispenser d node =
       Some (d2, node,
             Some (caddyfile.WrapErr d2
                     (numError (strconv.syntaxError "ParseBool" (caddyfile.Val d2)))))) /\
  (forall v, getTriState kw (setTriState kw v node) = v).
Proof.
  intros Hblock Hval Hkw.
  rewrite (parseNodeOptionsFromDispenser_step _ _ _ Hblock).
  unfold nodeOption. rewrite Hval.
  assert (kw = "ephemeral" \/ kw = "webui") as [-> | ->]
    by (simpl in Hkw; intuition congruence).
  all: repeat split; try reflexivity.
  all: try (intros d2 E; rewrite E; reflexivity).
  all: try (intros d2 v E Hb; rewrite E; simpl; rewrite Hb; reflexivity).
  all: intros d2 E Hbad; rewrite E; simpl;
       rewrite (ParseBool_error _ Hbad); reflexivity.
Qed.

(** C5, on an input: in the block [{ webui maybe }] the parse stops on the
    second line with the ParseBool error and the Node untouched. *)
Lemma C5_ephemeral_webui_tristate_witness :
  parseNodeOptionsFromDispenser
    (onFirstToken [["tailscale"; "{"]; ["webui"; "maybe"]; ["}"]]) Node.zero =
  Some (caddyfile.mkDispenser
          (linesFrom 1 [["tailscale"; "{"]; ["webui"; "maybe"]; ["}"]]) 3 1,
        Node.zero,
        Some (errorAt (numError (strconv.syntaxError "ParseBool" "maybe")) "Caddyfile" 2)).
Proof.
  refine (proj1 (proj2 (proj2 (proj2
    (C5_ephemeral_webui_tristate
       (onFirstToken [["tailscale"; "{"]; ["webui"; "maybe"]; ["}"]])
       (caddyfile.mkDispenser
          (linesFrom 1 [["tailscale"; "{"]; ["webui"; "maybe"]; ["}"]]) 2 1)
       Node.zero "webui" _ _ _)))) _ _ _).
  - vm_compute. reflexivity.
  - vm_compute. reflexivity.
  - simpl. tauto.
  - vm_compute. reflexivity.
  - simpl. intuition discriminate.
Defined.







(** ** The App switch against the node switch *)

Lemma storeNamedNode_default fuel d app :
  ~ In (caddyfile.Val d) appKeywords ->
  appOption fuel d app = storeNamedNode (parseNamedNodeConfig d) app.
Proof.
  intros Hnot.
  assert (Hne : forall k, In k appKeywords -> String.eqb (caddyfile.Val d) k = false)
    by (intros k; apply not_keyword_eqb; assumption).
  unfold appOption. rewrite !Hne by (simpl; tauto).
  unfold storeNamedNode.
  destruct (parseNamedNodeConfig d) as [[[d' node] [e|]]|]; try reflexivity.
  destruct app as [a b c e f g [m|]]; reflexivity.
Qed.

(** C1 as stated fails: [port] and [hostname] are not option keywords of
    the App parser.  On the block [{ port abc }] the node parser returns the
    ParseUint error, while the App parser returns no error and records a
    node named "port"; on [{ hostname h1 }] the node parser sets [Hostname],
    while the App parser records a node named "hostname" whose [Hostname] is
    empty. *)
Lemma C1_counterexample_port_hostname :
  (exists d' kind,
     parseNodeOptionsFromDispenser
       (onFirstToken [["tailscale"; "{"]; ["port"; "abc"]; ["}"]]) Node.zero =
     Some (d', Node.zero,
           Some (errorAt (numError (strconv.mkNumError "ParseUint" "abc" kind))
                         "Caddyfile" 2))) /\
  (exists d' app,
     parseAppOptions
       (onFirstToken [["tailscale"; "{"]; ["port"; "abc"]; ["}"]]) App.zero =
     Some (d', app, None) /\
     App.nodes app !! "port" = Some (Node.setName "port" Node.zero)) /\
  (exists d',
     parseNodeOptionsFromDispenser
       (onFirstToken [["tailscale"; "{"]; ["hostname"; "h1"]; ["}"]]) Node.zero =
     Some (d', Node.setHostname "h1" Node.zero, None)) /\
  (exists d' app,
     parseAppOptions
       (onFirstToken [["tailscale"; "{"]; ["hostname"; "h1"]; ["}"]]) App.zero =
     Some (d', app, None) /\
     App.nodes app !! "hostname" = Some (Node.setName "hostname" Node.zero)).
Proof.
  split; [eexists _, _; vm_compute; reflexivity|].
  split; [eexists _, _; split; vm_compute; reflexivity|].
  split; [eexists; vm_compute; reflexivity|].
  eexists _, _; split; vm_compute; reflexivity.
Qed.

(** C1, amended: on a line whose keyword is one of [auth_key],
    [control_url], [ephemeral], [state_dir], [webui] and [tags], the App
    switch and the node switch move the dispenser alike, return the same
    error, and keep an [App] and a [Node] that agreed on these options in
    agreement ([auth_key] goes to [DefaultAuthKey], [ephemeral] and [webui]
    to plain booleans), leaving [App.Nodes] alone; [hostname] and [port] are
    not App keywords: on them, as on every other token, the App switch
    parses a named node block and stores it under that token. *)
Theorem C1_app_keywords_are_six_of_the_eight fuel d app node :
  sameOptions app node ->
  (In (caddyfile.Val d) appKeywords ->
     match appOption fuel d app, nodeOption fuel d node with
     | Some (d1, app', e1), Some (d2, node', e2) =>
         d1 = d2 /\ e1 = e2 /\ sameOptions app' node' /\ App.Nodes app' = App.Nodes app
     | None, None => True
     | _, _ => False
     end) /\
  (In (caddyfile.Val d) ["hostname"; "port"] \/ ~ In (caddyfile.Val d) nodeKeywords ->
     appOption fuel d app = storeNamedNode (parseNamedNodeConfig d) app) /\
  (forall kw, In kw nodeKeywords <-> In kw appKeywords \/ kw = "hostname" \/ kw = "port").
Proof.
  intros Hsame. split; [|split].
  - intros Hin. unfold appOption, nodeOption.
    destruct Hsame as (Ha & Hc & He & Hs & Hw & Ht).
    simpl in Hin. decompose [or] Hin; try contradiction;
      match goal with E : _ = caddyfile.Val d |- _ => rewrite <- E end; simpl.
    all: try (destruct (caddyfile.NextArg d) as [[] d1]; simpl;
              repeat split; assumption).
    all: try (destruct (caddyfile.NextArg d) as [[] d1]; simpl;
              [destruct (strconv.ParseBool (caddyfile.Val d1)) as [v [err|]]|];
              repeat split; assumption).
    rewrite Ht.
    destruct (appendArgs fuel d (Node.Tags node)) as [[d1 tags]|]; [|exact I].
    repeat split; assumption.
  - intros Hkw. apply storeNamedNode_default.
    destruct Hkw as [Hkw | Hkw].
    + simpl in Hkw. decompose [or] Hkw; try contradiction;
        match goal with E : _ = caddyfile.Val d |- _ => rewrite <- E end;
        simpl; intuition discriminate.
    + intros Hin. apply Hkw. simpl in *. tauto.
  - intros kw. simpl. intuition congruence.
Qed.

(** C1 amended, on an input: a [webui] line without argument is handled
    alike at App scope and at node scope; a [port] line at App scope is the
    start of a named node block. *)
Lemma C1_app_keywords_are_six_of_the_eight_witness :
  match
    appOption 3
      (caddyfile.mkDispenser (linesFrom 1 [["tailscale"; "{"]; ["webui"]; ["}"]]) 2 1)
      App.zero,
    nodeOption 3
      (caddyfile.mkDispenser (linesFrom 1 [["tailscale"; "{"]; ["webui"]; ["}"]]) 2 1)
      Node.zero
  with
  | Some (d1, app', e1), Some (d2, node', e2) =>
      d1 = d2 /\ e1 = e2 /\ sameOptions app' node' /\ App.Nodes app' = App.Nodes App.zero
  | None, None => True
  | _, _ => False
  end /\
  appOption 3 (caddyfile.mkDispenser (linesFrom 1 [["tailscale"; "{"]; ["port"]; ["}"]]) 2 1)
    App.zero =
  storeNamedNode
    (parseNamedNodeConfig
       (caddyfile.mkDispenser (linesFrom 1 [["tailscale"; "{"]; ["port"]; ["}"]]) 2 1))
    App.zero.
Proof.
  split.
  - refine (proj1 (C1_app_keywords_are_six_of_the_eight 3
      (caddyfile.mkDispenser (linesFrom 1 [["tailscale"; "{"]; ["webui"]; ["}"]]) 2 1)
      App.zero Node.zero _) _).
    + repeat split.
    + simpl. tauto.
  - refine (proj1 (proj2 (C1_app_keywords_are_six_of_the_eight 3
      (caddyfile.mkDispenser (linesFrom 1 [["tailscale"; "{"]; ["port"]; ["}"]]) 2 1)
      App.zero Node.zero _)) _).
    + repeat split.
    + left. simpl. tauto.
Defined.

(** ** Named node blocks *)

(** The node switch never touches the unexported [name]. *)
Lemma nodeOption_name fuel d node d' node' e :
  nodeOption fuel d node = Some (d', node', e) -> Node.name node' = Node.name node.
Proof.
  unfold nodeOption.
  repeat match goal with
  | |- context [if String.eqb ?a ?b then _ else _] => destruct (String.eqb a b)
  end;
  try (destruct (caddyfile.NextArg d) as [[] ?]; simpl;
       repeat match goal with
       | |- context [strconv.ParseBool ?s] => destruct (strconv.ParseBool s) as [? []]
       | |- context [strconv.ParseUint ?s ?b] => destruct (strconv.ParseUint s b) as [? []]
       end; intros [= <- <- <-]; reflexivity).
  all: try (destruct (appendArgs fuel d (Node.Tags node)) as [[? ?]|]; [|discriminate]).
  all: intros [= <- <- <-]; reflexivity.
Qed.

Lemma parseNodeOptionsFromDispenser_loop_name fuel d node d' node' e :
  parseNodeOptionsFromDispenser_loop fuel d node = Some (d', node', e) ->
  Node.name node' = Node.name node.
Proof.
  revert d node. induction fuel as [|fuel IH]; intros d node; [discriminate|].
  simpl. destruct (caddyfile.NextBlock 0 d) as [[] d1]; simpl.
  - destruct (nodeOption fuel d1 node) as [[[d2 node2] e2]|] eqn:Eo; [|discriminate].
    apply nodeOption_name in Eo. destruct e2.
    + intros [= <- <- <-]. assumption.
    + intros E. apply IH in E. congruence.
  - intros [= <- <- <-]. reflexivity.
Qed.

(** A Node that [parseNamedNodeConfig] returns without error carries the
    token the block started with as its name. *)
Lemma parseNamedNodeConfig_name d d' node :
  parseNamedNodeConfig d = Some (d', node, None) -> Node.name node = caddyfile.Val d.
Proof.
  unfold parseNamedNodeConfig.
  destruct (caddyfile.NewFromNextSegment d) as [[d1 seg]|]; [|discriminate].
  destruct (caddyfile.Next seg) as [[] seg1]; simpl; [|discriminate].
  destruct (parseNodeOptionsFromDispenser seg1 _) as [[[s2 node2] e2]|] eqn:Ep; [|discriminate].
  intros [= <- <- ->]. apply parseNodeOptionsFromDispenser_loop_name in Ep. exact Ep.
Qed.

(** The six App keywords leave [App.Nodes] alone. *)
Lemma appOption_keyword_nodes fuel d app d' app' e :
  existsb (String.eqb (caddyfile.Val d)) appKeywords = true ->
  appOption fuel d app = Some (d', app', e) -> App.nodes app' = App.nodes app.
Proof.
  unfold appOption. simpl. intros Hkw.
  repeat match goal with
  | |- context [if String.eqb ?a ?b then _ else _] =>
      let E := fresh "E" in destruct (String.eqb a b) eqn:E
  end;
  try (destruct (caddyfile.NextArg d) as [[] ?]; simpl;
       repeat match goal with
       | |- context [strconv.ParseBool ?s] => destruct (strconv.ParseBool s) as [? []]
       end; intros [= <- <- <-]; reflexivity).
  - destruct (appendArgs fuel d (App.Tags app)) as [[? ?]|]; [|discriminate].
    intros [= <- <- <-]. reflexivity.
  - simpl in Hkw. discriminate.
Qed.

Lemma appOption_default_nodes fuel d app d' app' :
  existsb (String.eqb (caddyfile.Val d)) appKeywords = false ->
  appOption fuel d app = Some (d', app', None) ->
  exists node,
    parseNamedNodeConfig d = Some (d', node, None) /\
    App.nodes app' = insertNode (App.nodes app) node.
Proof.
  intros Hkw.
  rewrite storeNamedNode_default.
  - unfold storeNamedNode.
    destruct (parseNamedNodeConfig d) as [[[d1 node] [err|]]|]; try discriminate.
    intros [= <- <-]. exists node. split; reflexivity.
  - intros Hin. apply existsb_eqb_true in Hin. congruence.
Qed.

Lemma namedNodes_nodes fuel d app d' app' :
  parseAppOptions_loop fuel d app = Some (d', app', None) ->
  App.nodes app' = fold_left insertNode (namedNodes fuel d app) (App.nodes app).
Proof.
  revert d app. induction fuel as [|fuel IH]; intros d app; [discriminate|].
  cbn [parseAppOptions_loop namedNodes].
  destruct (caddyfile.NextBlock 0 d) as [[] d1]; cbn [negb].
  2:{ intros [= <- <-]. reflexivity. }
  destruct (appOption fuel d1 app) as [[[d2 app2] [err|]]|] eqn:Eo; try discriminate.
  intros E. apply IH in E. rewrite E, fold_left_app. f_equal.
  destruct (existsb (String.eqb (caddyfile.Val d1)) appKeywords) eqn:Ek.
  - cbn [fold_left]. eapply appOption_keyword_nodes; eassumption.
  - destruct (appOption_default_nodes _ _ _ _ _ Ek Eo) as (node & -> & ->). reflexivity.
Qed.

Lemma fold_insertNode_last nodes before node after :
  (forall n, In n after -> Node.name n <> Node.name node) ->
  fold_left insertNode (before ++ node :: after) nodes !! Node.name node = Some node.
Proof.
  intros Hafter. rewrite fold_left_app. simpl.
  generalize (fold_left insertNode before nodes). intros m.
  assert (Hm : insertNode m node !! Node.name node = Some node)
    by apply lookup_insert_eq.
  revert Hm. generalize (insertNode m node). clear m.
  induction after as [|n after IH]; intros m Hm; [exact Hm|].
  simpl. apply IH.
  - intros n' Hin. apply Hafter. right. assumption.
  - unfold insertNode. rewrite lookup_insert_ne; [exact Hm|].
    apply Hafter. left. reflexivity.
Qed.

(** C8: in the App switch a token that is not an App keyword, followed by
    a block that parses to [node], stores [node] under that token whether or
    not the name was already present, and returns no error; after a whole
    App-level parse, [App.Nodes] is the table it started from with the Nodes
    of the named blocks inserted in source order, so under each name stands
    the Node of the last block of that name; the table has one entry per
    name. *)
Theorem C8_named_node_last_block_wins :
  (forall fuel d app d' node,
     ~ In (caddyfile.Val d) appKeywords ->
     parseNamedNodeConfig d = Some (d', node, None) ->
     appOption fuel d app =
       Some (d', App.setNodes (Some (<[caddyfile.Val d := node]> (App.nodes app))) app, None)) /\
  (forall d app d' app',
     parseAppOptions d app = Some (d', app', None) ->
     App.nodes app' = fold_left insertNode (namedBlocks d app) (App.nodes app)) /\
  (forall d app d' app' before node after,
     parseAppOptions d app = Some (d', app', None) ->
     namedBlocks d app = before ++ node :: after ->
     (forall n, In n after -> Node.name n <> Node.name node) ->
     App.nodes app' !! Node.name node = Some node) /\
  (forall app : App.t, NoDup (fst <$> map_to_list (App.nodes app))).
Proof.
  split; [|split; [|split]].
  - intros fuel d app d' node Hnot Hp.
    rewrite storeNamedNode_default by assumption. rewrite Hp. simpl.
    rewrite (parseNamedNodeConfig_name _ _ _ Hp). reflexivity.
  - intros d app d' app'. apply namedNodes_nodes.
  - intros d app d' app' before node after Hp Hb Hafter.
    rewrite (namedNodes_nodes _ _ _ _ _ Hp).
    fold (namedBlocks d app). rewrite Hb. apply fold_insertNode_last. assumption.
  - intros app. apply NoDup_fst_map_to_list.
Qed.

(** C8, on an input: two blocks named "edge" with an option line between
    them; the table holds the second block's Node. *)
Lemma C8_named_node_last_block_wins_witness :
  exists d' app',
    parseAppOptions two_edge_blocks App.zero = Some (d', app', None) /\
    App.nodes app' !! "edge" = Some (Node.setName "edge" (Node.setPort 8443 Node.zero)) /\
    App.DefaultAuthKey app' = "k".
Proof.
  destruct (parseAppOptions two_edge_blocks App.zero) as [[[d' app'] e]|] eqn:Ep;
    [|vm_compute in Ep; discriminate].
  assert (He : e = None) by (vm_compute in Ep; congruence). subst e.
  exists d', app'. split; [reflexivity|]. split.
  - refine (proj1 (proj2 (proj2 C8_named_node_last_block_wins))
      two_edge_blocks App.zero d' app'
      [Node.setName "edge" (Node.setHostname "h1" Node.zero)]
      (Node.setName "edge" (Node.setPort 8443 Node.zero)) [] Ep _ _).
    + vm_compute. reflexivity.
    + intros n [].
  - vm_compute in Ep. injection Ep as _ <-. reflexivity.
Defined.

(** C9 as stated fails: a node name with no body is accepted.  In the
    global block [tailscale { edge }] the line [edge] has no argument and
    opens no block, yet [parseNamedNodeConfig] returns the Node that has
    only its name, with a nil error, and the App parse stores it. *)
Lemma C9_counterexample_name_without_body :
  parseNamedNodeConfig
    (caddyfile.mkDispenser (linesFrom 1 [["tailscale"; "{"]; ["edge"]; ["}"]]) 2 1) =
    Some (caddyfile.mkDispenser (linesFrom 1 [["tailscale"; "{"]; ["edge"]; ["}"]]) 2 1,
          Node.setName "edge" Node.zero, None) /\
  exists d' app,
    parseAppConfig (dispenserOf [["tailscale"; "{"]; ["edge"]; ["}"]]) =
      Some (d', Some app, None) /\
    App.nodes app !! "edge" = Some (Node.setName "edge" Node.zero).
Proof.
  split; [vm_compute; reflexivity|].
  eexists _, _. split; vm_compute; reflexivity.
Qed.

(** The segment cut by [NewFromNextSegment] begins with the current token,
    so stepping onto its first token succeeds. *)
Lemma segment_has_first_token d :
  exists d' seg seg',
    caddyfile.NewFromNextSegment d = Some (d', seg) /\
    caddyfile.Next seg = (true, seg').
Proof.
  unfold caddyfile.NewFromNextSegment.
  destruct (NextSegment_total d) as (d' & tkns & -> & _ & _ & Hl).
  exists d', (caddyfile.NewDispenser tkns). eexists. split; [reflexivity|].
  unfold caddyfile.Next, caddyfile.NewDispenser, caddyfile.len. simpl.
  destruct (Z.ltb_spec (-1) (Z.of_nat (length tkns) - 1)); [reflexivity | lia].
Qed.

(** C9, amended: the argument-missing return of [parseNamedNodeConfig] is
    never taken, because the segment always holds the name token; an error
    it returns is one that parsing the options of the block returned; a name
    with nothing after it on its line and no block opening there gives the
    Node that has only this name, and a nil error. *)
Theorem C9_named_block_without_body_is_empty_node :
  (forall d, exists d' seg seg',
     caddyfile.NewFromNextSegment d = Some (d', seg) /\
     caddyfile.Next seg = (true, seg')) /\
  (forall d d' node err,
     parseNamedNodeConfig d = Some (d', node, Some err) ->
     exists seg seg',
       parseNodeOptionsFromDispenser seg (Node.setName (caddyfile.Val d) Node.zero)
         = Some (seg', node, Some err)) /\
  (forall d d1 d2,
     caddyfile.NextArg d = (false, d1) ->
     caddyfile.NextBlock (caddyfile.Nesting d1) d1 = (false, d2) ->
     parseNamedNodeConfig d = Some (d2, Node.setName (caddyfile.Val d) Node.zero, None)).
Proof.
  split; [exact segment_has_first_token|]. split.
  - intros d d' node err. unfold parseNamedNodeConfig.
    destruct (segment_has_first_token d) as (d1 & seg & seg' & -> & ->). simpl.
    destruct (parseNodeOptionsFromDispenser seg' _) as [[[s2 node2] e2]|] eqn:Ep;
      [|discriminate].
    intros [= <- <- ->]. eauto.
  - intros d d1 d2 Harg Hblock.
    unfold parseNamedNodeConfig, caddyfile.NewFromNextSegment, caddyfile.NextSegment.
    cbn [caddyfile.segmentArgs]. rewrite Harg. cbn [negb caddyfile.segmentBlock].
    rewrite Hblock. reflexivity.
Qed.

(** C9 amended, on an input: the line [edge] of [tailscale { edge }]. *)
Lemma C9_named_block_without_body_is_empty_node_witness :
  parseNamedNodeConfig
    (caddyfile.mkDispenser (linesFrom 1 [["tailscale"; "{"]; ["edge"]; ["}"]]) 2 1) =
  Some (caddyfile.mkDispenser (linesFrom 1 [["tailscale"; "{"]; ["edge"]; ["}"]]) 2 1,
        Node.setName "edge" Node.zero, None).
Proof.
  refine (proj2 (proj2 C9_named_block_without_body_is_empty_node)
    (caddyfile.mkDispenser (linesFrom 1 [["tailscale"; "{"]; ["edge"]; ["}"]]) 2 1)
    (caddyfile.mkDispenser (linesFrom 1 [["tailscale"; "{"]; ["edge"]; ["}"]]) 2 1)
    (caddyfile.mkDispenser (linesFrom 1 [["tailscale"; "{"]; ["edge"]; ["}"]]) 2 1)
    _ _).
  - vm_compute. reflexivity.
  - vm_compute. reflexivity.
Defined.

(** * Further properties of the parsers *)

(** ** What a block can do to a Node *)

Lemma appendArgs_extends fuel d tags d' tags' :
  appendArgs fuel d tags = Some (d', tags') -> exists extra, tags' = tags ++ extra.
Proof.
  revert d tags. induction fuel as [|fuel IH]; intros d tags; [discriminate|].
  simpl. destruct (caddyfile.NextArg d) as [[] d1]; simpl.
  - intros E. apply IH in E as [extra ->]. rewrite <- app_assoc. eauto.
  - intros [= <- <-]. exists []. rewrite app_nil_r. reflexivity.
Qed.

Lemma uint16_range v : 0 <= uint16 v < 65536.
Proof. unfold uint16. apply Z.mod_pos_bound. reflexivity. Qed.

Lemma nodeOption_lineChange fuel d node d' node' e :
  nodeOption fuel d node = Some (d', node', e) -> lineChange node node'.
Proof.
  unfold nodeOption.
  repeat match goal with
  | |- context [if String.eqb ?a ?b then _ else _] => destruct (String.eqb a b)
  end;
  try (destruct (caddyfile.NextArg d) as [[] ?]; simpl;
       repeat match goal with
       | |- context [strconv.ParseBool ?s] => destruct (strconv.ParseBool s) as [? []]
       | |- context [strconv.ParseUint ?s ?b] => destruct (strconv.ParseUint s b) as [? []]
       end; intros [= <- <- <-]; constructor; apply uint16_range).
  all: try (destruct (appendArgs fuel d (Node.Tags node)) as [[? tags]|] eqn:Ea;
            [|discriminate];
            apply appendArgs_extends in Ea as [extra ->]; intros [= <- <- <-];
            constructor).
  all: intros [= <- <- <-]; constructor.
Qed.

Lemma blockChange_refl node : blockChange node node.
Proof.
  repeat split; try (left; reflexivity). exists []. rewrite app_nil_r. reflexivity.
Qed.

Lemma keptOrSet_trans a b c : keptOrSet a b -> keptOrSet b c -> keptOrSet a c.
Proof. intros [-> | [v ->]] [-> | [w ->]]; unfold keptOrSet; eauto. Qed.

Lemma blockChange_trans a b c : blockChange a b -> blockChange b c -> blockChange a c.
Proof.
  intros (Hn1 & [x1 Ht1] & Hp1 & He1 & Hw1) (Hn2 & [x2 Ht2] & Hp2 & He2 & Hw2).
  split; [congruence|]. split.
  { exists (x1 ++ x2). rewrite Ht2, Ht1, app_assoc. reflexivity. }
  split; [destruct Hp2 as [-> | ?]; [exact Hp1 | right; assumption]|].
  split; eapply keptOrSet_trans; eassumption.
Qed.

Lemma lineChange_blockChange node node' : lineChange node node' -> blockChange node node'.
Proof.
  intros []; try apply blockChange_refl;
    repeat split; simpl;
    try (left; reflexivity); try (right; eauto; fail);
    try (exists []; rewrite app_nil_r; reflexivity);
    try (eexists; reflexivity).
Qed.

Lemma parseNodeOptionsFromDispenser_loop_blockChange fuel d node d' node' e :
  parseNodeOptionsFromDispenser_loop fuel d node = Some (d', node', e) ->
  blockChange node node'.
Proof.
  revert d node. induction fuel as [|fuel IH]; intros d node; [discriminate|].
  simpl. destruct (caddyfile.NextBlock 0 d) as [[] d1]; simpl.
  - destruct (nodeOption fuel d1 node) as [[[d2 node2] e2]|] eqn:Eo; [|discriminate].
    apply nodeOption_lineChange, lineChange_blockChange in Eo. destruct e2.
    + intros [= <- <- <-]. assumption.
    + intros E. apply IH in E. eapply blockChange_trans; eassumption.
  - intros [= <- <- <-]. apply blockChange_refl.
Qed.


(** X2: the node parser never stores a port outside 0..65535: after it
    returns, [Port] is either what it was or a value of that range. *)
Theorem X2_node_parser_port_in_range d node :
  exists d' node' e,
    parseNodeOptionsFromDispenser d node = Some (d', node', e) /\
    (Node.Port node' = Node.Port node \/ 0 <= Node.Port node' < 65536).
Proof.
  destruct (parseNodeOptionsFromDispenser_total d node) as (d' & node' & e & E).
  pose proof (parseNodeOptionsFromDispenser_loop_blockChange _ _ _ _ _ _ E)
    as (_ & _ & Hp & _).
  exists d', node', e. split; assumption.
Qed.

(** X3: the node parser never returns a tri-state to unset: after it
    returns, [Ephemeral] and [WebUI] are each what they were or an explicit
    true or false. *)
Theorem X3_node_parser_never_unsets_tristate d node :
  exists d' node' e,
    parseNodeOptionsFromDispenser d node = Some (d', node', e) /\
    keptOrSet (Node.Ephemeral node) (Node.Ephemeral node') /\
    keptOrSet (Node.WebUI node) (Node.WebUI node').
Proof.
  destruct (parseNodeOptionsFromDispenser_total d node) as (d' & node' & e & E).
  pose proof (parseNodeOptionsFromDispenser_loop_blockChange _ _ _ _ _ _ E)
    as (_ & _ & _ & He & Hw).
  exists d', node', e. repeat split; assumption.
Qed.

(** ** The errors a block can end in *)

Lemma ParseBool_error_shape s v err :
  strconv.ParseBool s = (v, Some err) -> err = strconv.syntaxError "ParseBool" s.
Proof.
  unfold strconv.ParseBool.
  destruct (existsb _ strconv.trueWords); [discriminate|].
  destruct (existsb _ strconv.falseWords); [discriminate|].
  intros [= _ <-]. reflexivity.
Qed.

Lemma ParseUint_error_shape s v err :
  strconv.ParseUint s 16 = (v, Some err) ->
  exists kind, err = strconv.mkNumError "ParseUint" s kind.
Proof.
  intros E.
  destruct (isDecimal s) eqn:Hd; [destruct (Z.leb_spec (decimalValue s) 65535) as [Hv|Hv]|].
  - rewrite (ParseUint_16_ok s Hd Hv) in E. discriminate.
  - destruct (ParseUint_16_err s (or_intror Hv)) as (v' & kind & E').
    rewrite E' in E. injection E as _ <-. eauto.
  - destruct (ParseUint_16_err s (or_introl Hd)) as (v' & kind & E').
    rewrite E' in E. injection E as _ <-. eauto.
Qed.

Lemma nodeOption_error fuel d node d' node' err :
  nodeOption fuel d node = Some (d', node', Some err) -> nodeParseError d' err.
Proof.
  unfold nodeOption, nodeParseError.
  repeat match goal with
  | |- context [if String.eqb ?a ?b then _ else _] =>
      let E := fresh "Ekw" in destruct (String.eqb a b) eqn:E
  end;
  try (destruct (caddyfile.NextArg d) as [[] ?]; simpl;
       repeat match goal with
       | |- context [strconv.ParseBool ?s] =>
           let E := fresh "Eb" in destruct (strconv.ParseBool s) as [? []] eqn:E;
           [apply ParseBool_error_shape in E|]
       | |- context [strconv.ParseUint ?s ?b] =>
           let E := fresh "Eu" in destruct (strconv.ParseUint s b) as [? []] eqn:E;
           [apply ParseUint_error_shape in E as [? E]|]
       end; intros [= <- <- <-]; subst; eauto 6; fail).
  - destruct (appendArgs fuel d (Node.Tags node)) as [[? ?]|]; discriminate.
  - intros [= <- <- <-]. do 3 right. split; [reflexivity|].
    simpl. intros Hin.
    decompose [or] Hin; try contradiction;
      match goal with
      | H : _ = caddyfile.Val d, E : String.eqb (caddyfile.Val d) _ = false |- _ =>
          rewrite <- H in E; discriminate E
      end.
Qed.

Lemma parseNodeOptionsFromDispenser_loop_error fuel d node d' node' err :
  parseNodeOptionsFromDispenser_loop fuel d node = Some (d', node', Some err) ->
  nodeParseError d' err.
Proof.
  revert d node. induction fuel as [|fuel IH]; intros d node; [discriminate|].
  simpl. destruct (caddyfile.NextBlock 0 d) as [[] d1]; simpl; [|discriminate].
  destruct (nodeOption fuel d1 node) as [[[d2 node2] [e2|]]|] eqn:Eo; [| |discriminate].
  - intros [= <- <- <-]. eapply nodeOption_error. eassumption.
  - apply IH.
Qed.

(** X4: on every token stream the node parser returns, and an error it
    returns is one of four, built at the token where the parse stopped: the
    argument-missing error, the wrapped ParseBool syntax error quoting that
    token, a wrapped ParseUint error quoting that token, or the
    unrecognized-subdirective error naming that token, which then is none of
    the eight keywords. *)
Theorem X4_node_parser_error_kinds d node :
  exists d' node' e,
    parseNodeOptionsFromDispenser d node = Some (d', node', e) /\
    forall err, e = Some err -> nodeParseError d' err.
Proof.
  destruct (parseNodeOptionsFromDispenser_total d node) as (d' & node' & e & E).
  exists d', node', e. split; [assumption|].
  intros err ->. eapply parseNodeOptionsFromDispenser_loop_error. exact E.
Qed.

(** ** Named node blocks *)



(** ** The node table of the App *)

Lemma appOption_Nodes_step fuel d app d' app' e :
  appOption fuel d app = Some (d', app', e) ->
  App.Nodes app' = App.Nodes app \/
  exists node,
    Node.name node = caddyfile.Val d /\
    App.Nodes app' = Some (<[Node.name node := node]> (App.nodes app)).
Proof.
  destruct (existsb (String.eqb (caddyfile.Val d)) appKeywords) eqn:Ek.
  - unfold appOption. simpl in Ek.
    repeat match goal with
    | |- context [if String.eqb ?a ?b then _ else _] =>
        let E := fresh "E" in destruct (String.eqb a b) eqn:E
    end;
    try (destruct (caddyfile.NextArg d) as [[] ?]; simpl;
         repeat match goal with
         | |- context [strconv.ParseBool ?s] => destruct (strconv.ParseBool s) as [? []]
         end; intros [= <- <- <-]; left; reflexivity).
    + destruct (appendArgs fuel d (App.Tags app)) as [[? ?]|]; [|discriminate].
      intros [= <- <- <-]. left. reflexivity.
    + simpl in Ek. discriminate.
  - rewrite storeNamedNode_default.
    2:{ intros Hin. apply existsb_eqb_true in Hin. congruence. }
    unfold storeNamedNode.
    destruct (parseNamedNodeConfig d) as [[[d1 node] [err|]]|] eqn:Ep; try discriminate.
    + intros [= <- <- <-]. left. reflexivity.
    + intros [= <- <- <-]. right. exists node.
      split; [eapply parseNamedNodeConfig_name; eassumption | reflexivity].
Qed.

Lemma tableChange_refl app : tableChange app app.
Proof. repeat split; auto. Qed.

Lemma tableChange_trans a b c : tableChange a b -> tableChange b c -> tableChange a c.
Proof. intros (? & ? & ?) (? & ? & ?). repeat split; auto. Qed.

Lemma appOption_tableChange fuel d app d' app' e :
  appOption fuel d app = Some (d', app', e) -> tableChange app app'.
Proof.
  intros E. apply appOption_Nodes_step in E as [E | (node & Hn & E)];
    unfold tableChange, App.nodes; rewrite E; [repeat split; auto|].
  simpl. split; [|split].
  - intros Hk k n. destruct (decide (Node.name node = k)) as [<- | Hne].
    + rewrite lookup_insert_eq. intros [= <-]. reflexivity.
    + rewrite lookup_insert_ne by assumption. apply Hk.
  - discriminate.
  - intros k Hs. destruct (decide (Node.name node = k)) as [<- | Hne].
    + rewrite lookup_insert_eq. eauto.
    + rewrite lookup_insert_ne by assumption. exact Hs.
Qed.

Lemma parseAppOptions_loop_tableChange fuel d app d' app' e :
  parseAppOptions_loop fuel d app = Some (d', app', e) -> tableChange app app'.
Proof.
  revert d app. induction fuel as [|fuel IH]; intros d app; [discriminate|].
  simpl. destruct (caddyfile.NextBlock 0 d) as [[] d1]; simpl.
  - destruct (appOption fuel d1 app) as [[[d2 app2] e2]|] eqn:Eo; [|discriminate].
    apply appOption_tableChange in Eo. destruct e2.
    + intros [= <- <- <-]. assumption.
    + intros E. apply IH in E. eapply tableChange_trans; eassumption.
  - intros [= <- <- <-]. apply tableChange_refl.
Qed.

(** X6: on every token stream and from every App, [parseAppOptions]
    returns, and whether or not it returns an error it never removes a name
    from [App.Nodes], never turns a non-nil table into nil, and keeps the
    table keyed by name: if every Node stood under its own name before, every
    Node does after. *)
Theorem X6_app_parser_keeps_node_table d app :
  exists d' app' e,
    parseAppOptions d app = Some (d', app', e) /\
    (keyedByName (App.nodes app) -> keyedByName (App.nodes app')) /\
    (App.Nodes app <> None -> App.Nodes app' <> None) /\
    (forall k, is_Some (App.nodes app !! k) -> is_Some (App.nodes app' !! k)).
Proof.
  destruct (parseAppOptions_total d app) as (d' & app' & e & E).
  exists d', app', e. split; [assumption|].
  exact (parseAppOptions_loop_tableChange _ _ _ _ _ _ E).
Qed.


(** ** The helper entry point, over every implementation of its interface *)

Section AnySource.
Context {H : Type} `{OptionSource H}.





End AnySource.



(** ** The directive parser *)

Lemma parseTailscaleDirective_loop_shape fuel h t0 h' r e :
  parseTailscaleDirective_loop fuel h t0 = Some (h', r, e) ->
  match r, e with
  | Some t1, None =>
      (fst (httpcaddyfile.Next h) = true -> TailscaleDirective.NodeName t1 <> "") /\
      (fst (httpcaddyfile.Next h) = false -> t1 = t0) /\
      (TailscaleDirective.NodeName t0 <> "" -> TailscaleDirective.NodeName t1 <> "")
  | None, Some _ => fst (httpcaddyfile.Next h) = true
  | _, _ => False
  end.
Proof.
  revert h t0. induction fuel as [|fuel IH]; intros h t0; [discriminate|].
  cbn [parseTailscaleDirective_loop].
  destruct (httpcaddyfile.Next h) as [more h1]. destruct more; cbn [negb fst].
  2:{ intros [= <- <- <-]. repeat split; auto; discriminate. }
  destruct (NextArg h1) as [ok h2].
  set (t1 := if ok then TailscaleDirective.setNodeName (Val h2) t0 else t0).
  set (t2 := if String.eqb (TailscaleDirective.NodeName t1) ""
             then TailscaleDirective.setNodeName "default" t1 else t1).
  assert (Hname : TailscaleDirective.NodeName t2 <> "").
  { unfold t2. destruct (String.eqb_spec (TailscaleDirective.NodeName t1) "");
      [discriminate | assumption]. }
  destruct (parseNodeOptionsFromHelper _ h2 Node.zero) as [[[h3 node] [err|]]|];
    [| |discriminate].
  - intros [= <- <- <-]. reflexivity.
  - intros E. apply IH in E.
    destruct r as [t3|], e as [err|]; try contradiction; [|reflexivity].
    destruct E as (_ & _ & Hkeep).
    split; [|split]; intros; try discriminate; apply Hkeep; exact Hname.
Qed.

(** X9: [parseTailscaleDirective] returns on every helper, and returns
    either a directive or an error, never both and never neither.  A
    directive it returns has a non-empty [NodeName] (an absent or empty
    name argument became "default"), unless the helper had no token to step
    onto: then it is the zero directive, whose [NodeName] is empty. *)
Theorem X9_parsed_directive_is_named h :
  exists h' r e,
    parseTailscaleDirective h = Some (h', r, e) /\
    match r, e with
    | Some t1, None =>
        (fst (httpcaddyfile.Next h) = true -> TailscaleDirective.NodeName t1 <> "") /\
        (fst (httpcaddyfile.Next h) = false -> t1 = TailscaleDirective.zero)
    | None, Some _ => fst (httpcaddyfile.Next h) = true
    | _, _ => False
    end.
Proof.
  destruct (parseTailscaleDirective_total h) as (h' & r & e & E).
  exists h', r, e. split; [assumption|].
  apply parseTailscaleDirective_loop_shape in E.
  destruct r, e; try assumption. destruct E as (H1 & H2 & _). split; assumption.
Qed.

(** X10: when the directive's tokens are its name line and its block (the
    dispenser steps onto the directive name, the node parser run after the
    optional name argument returns [node] without error, and no token is left
    after it), [parseTailscaleDirective] returns the directive whose
    [NodeName] is the argument, or "default" when the argument is absent or
    empty, and whose option fields are those of [node]; provisioning it stores
    [node] under that name, with the name filled in. *)
Theorem X10_directive_fields_are_the_parsed_block d d1 ok d2 d3 node reg :
  caddyfile.Next d = (true, d1) ->
  caddyfile.NextArg d1 = (ok, d2) ->
  parseNodeOptionsFromDispenser d2 Node.zero = Some (d3, node, None) ->
  fst (caddyfile.Next d3) = false ->
  let t1 :=
    TailscaleDirective.copyFrom node
      (TailscaleDirective.setNodeName (parsedNodeName ok (caddyfile.Val d2))
         TailscaleDirective.zero) in
  parseTailscaleDirective (httpcaddyfile.mkHelper d) =
    Some (httpcaddyfile.mkHelper d3, Some t1, None) /\
  getSiteConfig (parsedNodeName ok (caddyfile.Val d2)) (fst (Provision t1 reg)) =
    (Node.setName (parsedNodeName ok (caddyfile.Val d2)) node, true).
Proof.
  intros Hnext Harg Hparse Hend t1.
  assert (Hne : parsedNodeName ok (caddyfile.Val d2) <> "").
  { unfold parsedNodeName. destruct ok; simpl; [|discriminate].
    destruct (String.eqb_spec (caddyfile.Val d2) ""); simpl; [discriminate | assumption]. }
  split.
  - unfold parseTailscaleDirective. cbn [httpcaddyfile.Dispenser].
    pose proof (caddyfile_facts.Next_remaining _ _ _ Hnext) as [_ Hlt].
    specialize (Hlt eq_refl).
    pose proof (caddyfile_facts.NextArg_remaining _ _ _ Harg) as [Hle2 _].
    destruct (parseNodeOptionsFromDispenser_returns d2 Node.zero)
      as (d3' & node' & e' & E' & Hle3).
    rewrite Hparse in E'. injection E' as <- <- <-.
    cbn [parseTailscaleDirective_loop]. unfold httpcaddyfile.Next at 1.
    cbn [httpcaddyfile.Dispenser]. rewrite Hnext. unfold httpcaddyfile.promote at 1.
    cbn [fst snd negb].
    change (NextArg (httpcaddyfile.mkHelper d1))
      with (httpcaddyfile.promote (caddyfile.NextArg d1)).
    rewrite Harg. unfold httpcaddyfile.promote at 1. cbn [fst snd].
    rewrite parseNodeOptionsFromHelper_enough by (cbn [httpcaddyfile.Dispenser]; lia).
    cbn [httpcaddyfile.Dispenser]. rewrite Hparse. cbn [asHelper].
    destruct (caddyfile.remaining d) as [|k] eqn:Hk; [lia|].
    assert (Hloop : forall t0,
      parseTailscaleDirective_loop (S k) (httpcaddyfile.mkHelper d3) t0 =
        Some (httpcaddyfile.mkHelper d3, Some t0, None)).
    { intros t0. cbn [parseTailscaleDirective_loop]. unfold httpcaddyfile.Next.
      cbn [httpcaddyfile.Dispenser].
      destruct (caddyfile.Next d3) as [more d4] eqn:E4. simpl in Hend. subst more.
      apply caddyfile_facts.Next_moves in E4 as (_ & _ & Hsame & _).
      rewrite (Hsame eq_refl). reflexivity. }
    rewrite Hloop. unfold t1, parsedNodeName.
    change (Val (httpcaddyfile.mkHelper d2)) with (caddyfile.Val d2).
    destruct ok; simpl.
    + destruct (String.eqb (caddyfile.Val d2) ""); reflexivity.
    + reflexivity.
  - unfold Provision. cbn [fst].
    assert (Hn : TailscaleDirective.NodeName t1 = parsedNodeName ok (caddyfile.Val d2))
      by reflexivity.
    rewrite Hn. apply String.eqb_neq in Hne. rewrite Hne.
    rewrite getSiteConfig_set_same. reflexivity.
Qed.

(** X10, on an input: [tailscale node1 { port 8443 }]. *)
Lemma X10_directive_fields_are_the_parsed_block_witness :
  parseTailscaleDirective directive_node1_port =
    Some (httpcaddyfile.mkHelper
            (caddyfile.mkDispenser
               (linesFrom 1 [["tailscale"; "node1"; "{"]; ["port"; "8443"]; ["}"]]) 5 0),
          Some (TailscaleDirective.mk "node1" "" "" opt.unset opt.unset "" 8443 "" []),
          None) /\
  getSiteConfig "node1"
    (fst (Provision (TailscaleDirective.mk "node1" "" "" opt.unset opt.unset "" 8443 "" [])
            siteConfigs0)) =
    (Node.setName "node1" (Node.setPort 8443 Node.zero), true).
Proof.
  pose (toks := linesFrom 1 [["tailscale"; "node1"; "{"]; ["port"; "8443"]; ["}"]]).
  exact (X10_directive_fields_are_the_parsed_block
           (caddyfile.NewDispenser toks)
           (caddyfile.mkDispenser toks 0 0) true
           (caddyfile.mkDispenser toks 1 0)
           (caddyfile.mkDispenser toks 5 0)
           (Node.setPort 8443 Node.zero) siteConfigs0
           eq_refl eq_refl eq_refl eq_refl).
Defined.

(** ** Provisioning several directives *)

Lemma Provision_insert t0 reg :
  fst (Provision t0 reg) = <[effectiveName t0 := directiveNode t0]> reg.
Proof. reflexivity. Qed.

Lemma provisionAll_cons t0 ts reg :
  provisionAll (t0 :: ts) reg = provisionAll ts (fst (Provision t0 reg)).
Proof. reflexivity. Qed.

Lemma provisionAll_app ts1 ts2 reg :
  provisionAll (ts1 ++ ts2) reg = provisionAll ts2 (provisionAll ts1 reg).
Proof. apply fold_left_app. Qed.

Lemma provisionAll_snoc ts t0 reg :
  provisionAll (ts ++ [t0]) reg =
    <[effectiveName t0 := directiveNode t0]> (provisionAll ts reg).
Proof. rewrite provisionAll_app. reflexivity. Qed.

Lemma provisionAll_untouched ts k reg :
  (forall t0, In t0 ts -> effectiveName t0 <> k) ->
  provisionAll ts reg !! k = reg !! k.
Proof.
  revert reg. induction ts as [|t0 ts IH]; intros reg Hnot; [reflexivity|].
  rewrite provisionAll_cons, IH by (intros t1 Hin; apply Hnot; right; assumption).
  rewrite Provision_insert. apply lookup_insert_ne. apply Hnot. left. reflexivity.
Qed.

Lemma provisionAll_Permutation ts ts' :
  ts ≡ₚ ts' -> NoDup (effectiveName <$> ts) ->
  forall reg, provisionAll ts reg = provisionAll ts' reg.
Proof.
  induction 1 as [|x l l' Hp IH|x y l|l l' l'' Hp1 IH1 Hp2 IH2]; intros Hnd reg.
  - reflexivity.
  - rewrite !provisionAll_cons. apply IH.
    rewrite fmap_cons in Hnd. apply NoDup_cons in Hnd as [_ Hnd]. exact Hnd.
  - rewrite !provisionAll_cons, !Provision_insert. f_equal.
    rewrite !fmap_cons in Hnd. apply NoDup_cons in Hnd as [Hy _].
    apply insert_insert_ne. intros Heq. apply Hy. rewrite Heq. left.
  - rewrite IH1 by assumption. apply IH2.
    rewrite <- Hp1. exact Hnd.
Qed.

(** X11: provisioning directives that have pairwise different effective
    names gives the same registry in whatever order it is done. *)
Theorem X11_provisioning_order_is_irrelevant ts ts' reg :
  ts ≡ₚ ts' ->
  NoDup (effectiveName <$> ts) ->
  provisionAll ts reg = provisionAll ts' reg.
Proof. intros Hp Hnd. apply provisionAll_Permutation; assumption. Qed.

(** X11, on an input: the directives "a" and "b", in both orders. *)
Lemma X11_provisioning_order_is_irrelevant_witness :
  provisionAll
    [TailscaleDirective.setNodeName "a" TailscaleDirective.zero;
     TailscaleDirective.setNodeName "b" TailscaleDirective.zero] siteConfigs0 =
  provisionAll
    [TailscaleDirective.setNodeName "b" TailscaleDirective.zero;
     TailscaleDirective.setNodeName "a" TailscaleDirective.zero] siteConfigs0.
Proof.
  apply X11_provisioning_order_is_irrelevant.
  - apply perm_swap.
  - simpl. apply NoDup_cons. split.
    + intros Hin. apply list_elem_of_In in Hin. simpl in Hin. intuition discriminate.
    + apply NoDup_singleton.
Defined.

(** X12: after provisioning a sequence of directives, the registry holds
    under each effective name the Node of the last directive of that name in
    the sequence, whatever the registry held before, so no provisioned name
    is missing; a name that no directive of the sequence has reads as it did
    before. *)
Theorem X12_provisioned_names_are_found :
  (forall before t0 after reg,
     (forall t1, In t1 after -> effectiveName t1 <> effectiveName t0) ->
     getSiteConfig (effectiveName t0) (provisionAll (before ++ t0 :: after) reg) =
       (directiveNode t0, true)) /\
  (forall ts t0 reg,
     In t0 ts ->
     snd (getSiteConfig (effectiveName t0) (provisionAll ts reg)) = true) /\
  (forall ts k reg,
     (forall t0, In t0 ts -> effectiveName t0 <> k) ->
     getSiteConfig k (provisionAll ts reg) = getSiteConfig k reg).
Proof.
  assert (Hlast : forall before t0 after reg,
     (forall t1, In t1 after -> effectiveName t1 <> effectiveName t0) ->
     getSiteConfig (effectiveName t0) (provisionAll (before ++ t0 :: after) reg) =
       (directiveNode t0, true)).
  { intros before t0 after reg Hafter. unfold getSiteConfig.
    rewrite provisionAll_app, provisionAll_cons.
    rewrite provisionAll_untouched by assumption.
    rewrite Provision_insert, lookup_insert_eq. reflexivity. }
  split; [exact Hlast|]. split.
  - intros ts. induction ts as [|t1 ts IH] using rev_ind; intros t0 reg Hin; [contradiction|].
    apply in_app_iff in Hin as [Hin | [<- | []]].
    + rewrite provisionAll_snoc. unfold getSiteConfig.
      destruct (decide (effectiveName t1 = effectiveName t0)) as [Heq | Hne].
      * rewrite Heq, lookup_insert_eq. reflexivity.
      * rewrite lookup_insert_ne by assumption. apply (IH t0 reg Hin).
    + rewrite (Hlast ts t1 [] reg); [reflexivity | intros ? []].
  - intros ts k reg Hnot. unfold getSiteConfig.
    rewrite provisionAll_untouched by assumption. reflexivity.
Qed.

(** X13: a registry filled by [Provision] alone holds every Node under
    the Node's own name; and a directive without a name writes the entry of
    the name "default", so a later directive named "default" replaces what
    it wrote. *)
Theorem X13_registry_is_keyed_by_name :
  (forall ts, keyedByName (provisionAll ts siteConfigs0)) /\
  (forall t1 t2 reg,
     TailscaleDirective.NodeName t1 = "" ->
     TailscaleDirective.NodeName t2 = "default" ->
     provisionAll [t1; t2] reg = provisionAll [t2] reg).
Proof.
  split.
  - intros ts. induction ts as [|t0 ts IH] using rev_ind.
    + intros k n Hl. change (provisionAll [] siteConfigs0) with (∅ : gmap string Node.t) in Hl.
      apply lookup_empty_Some in Hl. contradiction.
    + rewrite provisionAll_snoc. intros k n.
      destruct (decide (effectiveName t0 = k)) as [<- | Hne].
      * rewrite lookup_insert_eq. intros [= <-]. reflexivity.
      * rewrite lookup_insert_ne by assumption. apply IH.
  - intros t1 t2 reg H1 H2.
    change (<[effectiveName t2 := directiveNode t2]>
              (<[effectiveName t1 := directiveNode t1]> reg) =
            <[effectiveName t2 := directiveNode t2]> reg).
    assert (effectiveName t1 = effectiveName t2) as ->
      by (unfold effectiveName; rewrite H1, H2; reflexivity).
    apply insert_insert_eq.
Qed.

(** ** The errors of the App parser *)



